(** * opt-parse: the command line option parser of [opt-parse.h]

  A shallow embedding of [class Opt] and of [Opt::parseCmdLine], and the
  properties of its contract.

  Layout:
  - [CString]: [strcmp] on token strings and the stream constants;
  - [OptParse]: the class [Opt], the scan of the option table and
    [parseCmdLine], over an arbitrary regular expression library
    (the code uses [std::regex], [std::regex_match] and [std::cmatch]);
  - the theorems on [parseCmdLine]. *)

From Stdlib Require Import ZArith List String Ascii Bool Lia PeanoNat Permutation.
Import ListNotations.

Set Implicit Arguments.

Local Open Scope list_scope.
Local Open Scope string_scope.
Local Open Scope Z_scope.

(* ================================================================== *)
(** ** C strings and streams *)

Module CString.

(** [strcmp]: zero when the two strings are equal, negative or positive
    after the first differing byte (compared as unsigned char).  Only the
    sign is fixed by the C standard; the code tests [== 0]. *)
Fixpoint strcmp (a b : string) : Z :=
  match a, b with
  | EmptyString, EmptyString => 0
  | EmptyString, String _ _ => -1
  | String _ _, EmptyString => 1
  | String c a', String d b' =>
      if Ascii.eqb c d then strcmp a' b'
      else if (N_of_ascii c <? N_of_ascii d)%N then -1 else 1
  end.

(** [std::endl] writes a newline (and flushes, which has no content here). *)
Definition endl : string := String (ascii_of_nat 10) EmptyString.

(** The character written [\t] in the source. *)
Definition tab : string := String (ascii_of_nat 9) EmptyString.

End CString.

Import CString.

(* ================================================================== *)
(** ** The class [Opt] and [parseCmdLine] *)

(** [std::cmatch]: the sub-matches of a successful match, [m[0]] the whole
    match and [m[i]] the i-th capture group; a group that took no part in
    the match is [None]. *)
Definition cmatch : Type := list (option string).

(** [typedef std::function<void(std::cmatch const&)> Handler]: a handler
    has no result; its effect is on the state owned by the caller (the
    variables captured by reference in the closures), of type [St]. *)
Definition Handler (St : Type) : Type := cmatch -> St -> St.

(** The regular expression library the code is written against. *)
Class RegexLib : Type := {
  (** [std::regex]: the compiled pattern. *)
  regex : Type;
  (** [std::regex(pattern)]; the constructor throws [std::regex_error] on
      an ill-formed pattern, which is [None] here. *)
  std_regex : string -> option regex;
  (** [std::regex_match(s, results, re)]: [Some results] when it returns
      [true] and has filled [results], [None] when it returns [false]. *)
  regex_match : string -> regex -> option cmatch
}.

Section OptParse.

Context {L : RegexLib}.
Variable St : Type.

(** The private members of [Opt]. *)
Record Opt : Type := mkOpt {
  r_ : regex;       (* regex to recognise the option *)
  help_ : string;   (* help string for this option *)
  h_ : Handler St   (* handler function to call if option present *)
}.

(** The constructor [Opt(pattern, help, handler)]. *)
Definition Opt_ctor (pattern help : string) (handler : Handler St) : option Opt :=
  match std_regex pattern with
  | Some r =>
      Some {| r_ := r;
              help_ := "  " ++ pattern ++ ":" ++ tab ++ help;
              h_ := handler |}
  | None => None
  end.

(** What a call of [parseCmdLine] can act on: the caller's state (through
    the handlers), the text it writes to [std::cout] and to [std::cerr],
    and the sequence of handler calls it has made: the position in the
    table of the descriptor whose handler is called and the match results
    passed to it. *)
Record World : Type := mkWorld {
  user : St;
  cout : string;
  cerr : string;
  calls : list (nat * cmatch)
}.

(** [std::cout << text] *)
Definition put_cout (text : string) (w : World) : World :=
  {| user := user w; cout := cout w ++ text; cerr := cerr w; calls := calls w |}.

(** [std::cerr << text] *)
Definition put_cerr (text : string) (w : World) : World :=
  {| user := user w; cout := cout w; cerr := cerr w ++ text; calls := calls w |}.

(** [next->h_(results)], [next] at position [pos] of the table. *)
Definition invoke (pos : nat) (o : Opt) (results : cmatch) (w : World) : World :=
  {| user := h_ o results (user w);
     cout := cout w;
     cerr := cerr w;
     calls := (calls w ++ [(pos, results)])%list |}.

(** The inner loop:
<<
      bool found = false;
      auto next = opts.begin();
      while( !found && next != opts.end() ) { ... }
>>
    [next] is the part of the table from the iterator to [opts.end()] and
    [pos] the distance of the iterator from [opts.begin()].  The result is
    the final value of [found]. *)
Fixpoint scan (arg : string) (next : list Opt) (pos : nat) (w : World)
  : bool * World :=
  match next with
  | [] => (false, w)
  | o :: rest =>
      match regex_match arg (r_ o) with
      | Some results => (true, invoke pos o results w)
      | None => scan arg rest (S pos) w
      end
  end.

(** The body of the loop over the arguments, for the token [argv[argi]]. *)
Definition arg_body (arg : string) (opts : list Opt)
  (showUsage : bool) (w : World) : bool * World :=
  if strcmp arg "--help" =? 0 then (true, w)
  else
    let '(found, w1) := scan arg opts 0%nat w in
    if negb found
    then (true, put_cerr ("Unrecognised option: " ++ arg ++ endl) w1)
    else (showUsage, w1).

(** [argv[argi]]; reading past the end of [argv] is not defined by the
    language, the theorems call with [argc] the length of [argv]. *)
Definition argv_at (argv : list string) (argi : Z) : string :=
  nth (Z.to_nat argi) argv "".

(** [for( int argi = 1; argi < argc; argi++ )]: [n] is the number of
    iterations left to run, [argc - argi]. *)
Fixpoint for_args (n : nat) (argi : Z) (argv : list string)
  (opts : list Opt) (showUsage : bool) (w : World) : bool * World :=
  match n with
  | O => (showUsage, w)
  | S n' =>
      let '(showUsage1, w1) := arg_body (argv_at argv argi) opts showUsage w in
      for_args n' (argi + 1) argv opts showUsage1 w1
  end.

(** [for( auto& opt : opts ) std::cout << opt.help_ << std::endl;] *)
Fixpoint print_help (opts : list Opt) (w : World) : World :=
  match opts with
  | [] => w
  | opt :: rest => print_help rest (put_cout endl (put_cout (help_ opt) w))
  end.

(** The block run when [showUsage] is set. *)
Definition print_usage (argv : list string) (opts : list Opt) (w : World) : World :=
  let w1 := put_cout endl (put_cout (argv_at argv 0) (put_cout "Usage: " w)) in
  put_cout endl (print_help opts w1).

(** [static bool parseCmdLine(int argc, char** argv,
                              std::vector<Opt> const& opts)] *)
Definition parseCmdLine (argc : Z) (argv : list string) (opts : list Opt)
  (w : World) : bool * World :=
  let '(showUsage, w1) := for_args (Z.to_nat (argc - 1)) 1 argv opts false w in
  if showUsage
  then (negb showUsage, print_usage argv opts w1)
  else (negb showUsage, w1).

End OptParse.


(* ================================================================== *)
(** ** A model of [std::regex] for a subset of the ECMAScript grammar

    [parseCmdLine] is written against the interface above and the theorems
    on it hold for every regular expression library.  To run the parser on
    concrete command lines, this module gives one: patterns built from
    literal characters, [.], character classes [[a-z]], [\d], escaped
    characters, groups [( )] and [(?: )], alternation [|] and the greedy
    quantifiers [*], [+] and [?].  A pattern outside this subset has no
    compiled form here ([std_regex] gives [None]). *)

Module Regex.

Local Open Scope list_scope.

(** Abstract syntax of a compiled pattern. *)
Inductive re : Type :=
| Empty                                        (* the empty pattern *)
| Char (c : ascii)                             (* a literal character *)
| AnyChar                                      (* [.] *)
| Class (negated : bool) (ranges : list (ascii * ascii))   (* [[...]] *)
| Seq (a b : re)                               (* [ab] *)
| Alt (a b : re)                               (* [a|b] *)
| Star (a : re)                                (* [a*] *)
| Group (n : nat) (a : re).                    (* [(a)], capture group [n] *)

(** A compiled pattern and its number of capture groups
    ([std::regex::mark_count]). *)
Record regex : Type := mkRegex { ast : re; mark_count : nat }.

(** [.] matches any character but a line terminator. *)
Definition is_line_terminator (c : ascii) : bool :=
  (nat_of_ascii c =? 10)%nat || (nat_of_ascii c =? 13)%nat.

Definition in_range (c : ascii) (r : ascii * ascii) : bool :=
  (nat_of_ascii (fst r) <=? nat_of_ascii c)%nat
  && (nat_of_ascii c <=? nat_of_ascii (snd r))%nat.

Definition in_class (negated : bool) (ranges : list (ascii * ascii)) (c : ascii) : bool :=
  xorb negated (existsb (in_range c) ranges).

(** Sub-match [n] of [m] set to [v]. *)
Fixpoint set_group (n : nat) (v : string) (m : cmatch) : cmatch :=
  match n, m with
  | _, [] => []
  | O, _ :: m' => Some v :: m'
  | S n', x :: m' => x :: set_group n' v m'
  end.

(** The characters of [s] read before the rest [s1] was reached. *)
Definition consumed (s s1 : list ascii) : string :=
  string_of_list_ascii (firstn (List.length s - List.length s1) s).

(** Zero or more rounds of [step], the longest repetition first; a round
    that reads nothing is not continued.  [n] bounds the number of rounds,
    and the length of the input is enough. *)
Fixpoint iterate (step : list ascii -> cmatch -> list (list ascii * cmatch))
  (n : nat) (s : list ascii) (m : cmatch) {struct n}
  : list (list ascii * cmatch) :=
  match n with
  | O => [(s, m)]
  | S n' =>
      flat_map
        (fun x =>
           if (List.length (fst x) <? List.length s)%nat
           then iterate step n' (fst x) (snd x)
           else [])
        (step s m)
      ++ [(s, m)]
  end.

(** The backtracking matcher: every way of matching [r] at the start of
    [s], in the order a backtracking engine tries them (leftmost
    alternative first, longest repetition first), each with the rest of
    the input and the sub-matches recorded so far. *)
Fixpoint run (r : re) (s : list ascii) (m : cmatch) {struct r}
  : list (list ascii * cmatch) :=
  match r with
  | Empty => [(s, m)]
  | Char c =>
      match s with
      | d :: s1 => if Ascii.eqb c d then [(s1, m)] else []
      | [] => []
      end
  | AnyChar =>
      match s with
      | d :: s1 => if is_line_terminator d then [] else [(s1, m)]
      | [] => []
      end
  | Class negated ranges =>
      match s with
      | d :: s1 => if in_class negated ranges d then [(s1, m)] else []
      | [] => []
      end
  | Seq a b => flat_map (fun x => run b (fst x) (snd x)) (run a s m)
  | Alt a b => run a s m ++ run b s m
  | Star a => iterate (run a) (List.length s) s m
  | Group n a =>
      map (fun x => (fst x, set_group n (consumed s (fst x)) (snd x))) (run a s m)
  end.

(** [std::regex_match]: the first way of matching that reads the whole
    input. *)
Definition regex_match (s : string) (r : regex) : option cmatch :=
  let input := list_ascii_of_string s in
  match find (fun x => match fst x with [] => true | _ => false end)
             (run (ast r) input (repeat None (S (mark_count r)))) with
  | Some x => Some (set_group 0 s (snd x))
  | None => None
  end.

(** *** The constructor [std::regex(pattern)] *)

Definition ch (n : nat) : ascii := ascii_of_nat n.

(** The contents of a character class, up to the closing bracket. *)
Fixpoint parse_class (p : list ascii) (acc : list (ascii * ascii))
  : option (list (ascii * ascii) * list ascii) :=
  match p with
  | [] => None
  | c :: p1 =>
      if Ascii.eqb c "]" then Some (rev acc, p1)
      else if Ascii.eqb c "\" then
        match p1 with
        | d :: p2 => parse_class p2 ((d, d) :: acc)
        | [] => None
        end
      else
        match p1 with
        | dash :: hi :: p3 =>
            if Ascii.eqb dash "-" && negb (Ascii.eqb hi "]")
            then (if (nat_of_ascii c <=? nat_of_ascii hi)%nat
                  then parse_class p3 ((c, hi) :: acc)
                  else None)
            else parse_class p1 ((c, c) :: acc)
        | _ => parse_class p1 ((c, c) :: acc)
        end
  end.

(** The characters with a meaning in the grammar. *)
Definition is_syntax_char (c : ascii) : bool :=
  existsb (Ascii.eqb c)
    ["^"; "$"; "\"; "."; "*"; "+"; "?"; "("; ")"; "["; "]"; "{"; "}"; "|"]%char.

Definition digit_class : re := Class false [("0", "9")]%char.

(** Recursive descent on the pattern; [g] is the number of capture groups
    opened so far, [n] bounds the depth of the descent. *)
Fixpoint parse_disjunction (n : nat) (p : list ascii) (g : nat)
  : option (re * list ascii * nat) :=
  match n with
  | O => None
  | S n' =>
      match parse_alternative n' p g with
      | Some (a, p1, g1) =>
          match p1 with
          | c :: p2 =>
              if Ascii.eqb c "|" then
                match parse_disjunction n' p2 g1 with
                | Some (b, p3, g2) => Some (Alt a b, p3, g2)
                | None => None
                end
              else Some (a, p1, g1)
          | [] => Some (a, p1, g1)
          end
      | None => None
      end
  end
with parse_alternative (n : nat) (p : list ascii) (g : nat)
  : option (re * list ascii * nat) :=
  match n with
  | O => None
  | S n' =>
      match p with
      | [] => Some (Empty, p, g)
      | c :: _ =>
          if Ascii.eqb c "|" || Ascii.eqb c ")" then Some (Empty, p, g)
          else
            match parse_term n' p g with
            | Some (a, p1, g1) =>
                match parse_alternative n' p1 g1 with
                | Some (Empty, p2, g2) => Some (a, p2, g2)
                | Some (b, p2, g2) => Some (Seq a b, p2, g2)
                | None => None
                end
            | None => None
            end
      end
  end
with parse_term (n : nat) (p : list ascii) (g : nat)
  : option (re * list ascii * nat) :=
  match n with
  | O => None
  | S n' =>
      match parse_atom n' p g with
      | Some (a, p1, g1) =>
          match p1 with
          | q :: p2 =>
              if Ascii.eqb q "*" then Some (Star a, p2, g1)
              else if Ascii.eqb q "+" then Some (Seq a (Star a), p2, g1)
              else if Ascii.eqb q "?" then Some (Alt a Empty, p2, g1)
              else Some (a, p1, g1)
          | [] => Some (a, p1, g1)
          end
      | None => None
      end
  end
with parse_atom (n : nat) (p : list ascii) (g : nat)
  : option (re * list ascii * nat) :=
  match n with
  | O => None
  | S n' =>
      match p with
      | [] => None
      | c :: p1 =>
          if Ascii.eqb c "." then Some (AnyChar, p1, g)
          else if Ascii.eqb c "(" then
            match p1 with
            | q :: colon :: p2 =>
                if Ascii.eqb q "?" then
                  (if Ascii.eqb colon ":" then
                     match parse_disjunction n' p2 g with
                     | Some (a, close :: p3, g1) =>
                         if Ascii.eqb close ")" then Some (a, p3, g1) else None
                     | _ => None
                     end
                   else None)
                else
                  match parse_disjunction n' p1 (S g) with
                  | Some (a, close :: p3, g1) =>
                      if Ascii.eqb close ")" then Some (Group (S g) a, p3, g1) else None
                  | _ => None
                  end
            | _ =>
                match parse_disjunction n' p1 (S g) with
                | Some (a, close :: p3, g1) =>
                    if Ascii.eqb close ")" then Some (Group (S g) a, p3, g1) else None
                | _ => None
                end
            end
          else if Ascii.eqb c "[" then
            match p1 with
            | neg :: p2 =>
                if Ascii.eqb neg "^" then
                  match parse_class p2 [] with
                  | Some (ranges, p3) => Some (Class true ranges, p3, g)
                  | None => None
                  end
                else
                  match parse_class p1 [] with
                  | Some (ranges, p3) => Some (Class false ranges, p3, g)
                  | None => None
                  end
            | [] => None
            end
          else if Ascii.eqb c "\" then
            match p1 with
            | d :: p2 =>
                if Ascii.eqb d "d" then Some (digit_class, p2, g)
                else if is_syntax_char d || Ascii.eqb d "-" || Ascii.eqb d "/"
                then Some (Char d, p2, g)
                else None
            | [] => None
            end
          else if is_syntax_char c then None
          else Some (Char c, p1, g)
      end
  end.

(** [std::regex(pattern)] *)
Definition std_regex (pattern : string) : option regex :=
  let p := list_ascii_of_string pattern in
  match parse_disjunction (4 * List.length p + 8) p 0 with
  | Some (a, [], g) => Some {| ast := a; mark_count := g |}
  | _ => None
  end.

(** *** The language of a pattern

    The strings a pattern stands for, with no reference to the matcher:
    the meaning of "the pattern matches the string". *)
Inductive lang : re -> list ascii -> Prop :=
| lang_Empty : lang Empty []
| lang_Char c : lang (Char c) [c]
| lang_AnyChar c : is_line_terminator c = false -> lang AnyChar [c]
| lang_Class negated ranges c :
    in_class negated ranges c = true -> lang (Class negated ranges) [c]
| lang_Seq a b u v : lang a u -> lang b v -> lang (Seq a b) (u ++ v)
| lang_Alt_l a b u : lang a u -> lang (Alt a b) u
| lang_Alt_r a b u : lang b u -> lang (Alt a b) u
| lang_Star_nil a : lang (Star a) []
| lang_Star_app a u v : lang a u -> lang (Star a) v -> lang (Star a) (u ++ v)
| lang_Group n a u : lang a u -> lang (Group n a) u.

(** The pattern [r] matches the whole of the string [s]. *)
Definition matches (r : regex) (s : string) : Prop :=
  lang (ast r) (list_ascii_of_string s).

(** The pattern [r] matches some part of the string [s]
    (what [std::regex_search] looks for). *)
Definition matches_within (r : regex) (s : string) : Prop :=
  exists pre mid post, s = (pre ++ mid ++ post)%string /\ matches r mid.

End Regex.

(** The model of [std::regex] as a regular expression library. *)
#[export] Instance StdRegex : RegexLib := {|
  regex := Regex.regex;
  std_regex := Regex.std_regex;
  regex_match := Regex.regex_match
|}.

(** What it means for a pattern to match a string, for a library [L]:
    [regex_match] succeeds exactly on the strings the pattern stands for,
    taken whole (the contract of [std::regex_match]). *)
Class RegexSemantics (L : RegexLib) : Type := {
  matches : regex -> string -> Prop;
  regex_match_whole :
    forall (s : string) (r : regex),
      (exists m, regex_match s r = Some m) <-> matches r s
}.


(* ================================================================== *)
(** ** Vocabulary of the contract *)

Section Contract.

Context {L : RegexLib}.
Variable St : Type.

(** The argument tokens of a command line: [argv] without the program
    name [argv[0]]. *)
Definition tokens (argv : list string) : list string := tl argv.

(** [argc] as the C runtime passes it: the number of entries of [argv]. *)
Definition argc_of (argv : list string) : Z := Z.of_nat (List.length argv).

(** The descriptor [o]'s pattern matches the token [arg]. *)
Definition accepts (arg : string) (o : Opt St) : bool :=
  match regex_match arg (r_ o) with
  | Some _ => true
  | None => false
  end.

(** The token [arg] matches the pattern of some descriptor of the table. *)
Definition recognised (opts : list (Opt St)) (arg : string) : bool :=
  existsb (accepts arg) opts.

(** The token is the literal [--help]. *)
Definition is_help (arg : string) : bool := String.eqb arg "--help".

(** The tokens that get a diagnostic: not [--help] and matched by no
    descriptor. *)
Definition unrecognised (opts : list (Opt St)) (arg : string) : bool :=
  negb (is_help arg) && negb (recognised opts arg).

(** The tokens a handler is called for: not [--help] and matched by some
    descriptor. *)
Definition handled (opts : list (Opt St)) (arg : string) : bool :=
  negb (is_help arg) && recognised opts arg.

(** Some token is [--help] or is matched by no descriptor: the cases in
    which the code sets [showUsage]. *)
Definition usage_requested (opts : list (Opt St)) (args : list string) : bool :=
  existsb (fun a => is_help a || negb (recognised opts a)) args.

(** The descriptor at position [pos] is the first of the table whose
    pattern matches [arg], and [m] are the results of that match. *)
Definition first_match (opts : list (Opt St)) (arg : string)
  (pos : nat) (m : cmatch) : Prop :=
  (exists o, nth_error opts pos = Some o /\ regex_match arg (r_ o) = Some m)
  /\ (forall k o, (k < pos)%nat -> nth_error opts k = Some o ->
                  regex_match arg (r_ o) = None).

(** The effect on the caller's state of a sequence of handler calls, each
    the handler of the descriptor at the recorded position run on the
    recorded match results. *)
Fixpoint run_calls (opts : list (Opt St)) (cs : list (nat * cmatch))
  (st : St) : St :=
  match cs with
  | [] => st
  | (pos, m) :: rest =>
      match nth_error opts pos with
      | Some o => run_calls opts rest (h_ o m st)
      | None => run_calls opts rest st
      end
  end.

(** The diagnostic for an unrecognised token. *)
Definition diagnostic (arg : string) : string :=
  "Unrecognised option: " ++ arg ++ endl.

(** The usage listing: the banner, the help line of every descriptor in
    table order, and an empty line. *)
Definition usage_text (prog : string) (opts : list (Opt St)) : string :=
  "Usage: " ++ prog ++ endl
  ++ String.concat "" (map (fun o => help_ o ++ endl) opts)
  ++ endl.

(** A descriptor as the caller writes it: the arguments of the
    constructor of [Opt]. *)
Record Descr : Type := mkDescr {
  pattern : string;
  help : string;
  handler : Handler St
}.

(** The table built from a list of descriptors, by the constructor of
    [Opt] on each; [None] when a pattern is refused. *)
Fixpoint make_table (ds : list Descr) : option (list (Opt St)) :=
  match ds with
  | [] => Some []
  | d :: rest =>
      match Opt_ctor (pattern d) (help d) (handler d), make_table rest with
      | Some o, Some os => Some (o :: os)
      | _, _ => None
      end
  end.

(** Two worlds that differ at most by what was written to the standard
    output. *)
Definition same_but_cout (w w' : World St) : Prop :=
  user w = user w' /\ cerr w = cerr w' /\ calls w = calls w'.

(** The loop over the arguments, on the list of the tokens left. *)
Fixpoint each_arg (args : list string) (opts : list (Opt St))
  (showUsage : bool) (w : World St) : bool * World St :=
  match args with
  | [] => (showUsage, w)
  | arg :: rest =>
      let '(showUsage1, w1) := arg_body arg opts showUsage w in
      each_arg rest opts showUsage1 w1
  end.

End Contract.


(* ================================================================== *)
(** ** The example of the header comment *)

Module Example.

(** The variables the handlers of the example capture by reference. *)
Record Settings : Type := mkSettings {
  serverAddress : string;
  reverseFluxPolarity : bool;
  windowWidth : Z;
  windowHeight : Z
}.

(** Their initial values. *)
Definition defaults : Settings :=
  {| serverAddress := "localhost:10000";
     reverseFluxPolarity := false;
     windowWidth := 1280;
     windowHeight := 1024 |}.

(** [m[i]] read as a string; a group that did not take part in the match
    reads as the empty string. *)
Definition sub (m : cmatch) (i : nat) : string :=
  match nth i m None with
  | Some s => s
  | None => ""
  end.

Definition is_digit (c : ascii) : bool :=
  (48 <=? nat_of_ascii c)%nat && (nat_of_ascii c <=? 57)%nat.

Fixpoint atoi_digits (s : string) (acc : Z) : Z :=
  match s with
  | String c s' =>
      if is_digit c
      then atoi_digits s' (10 * acc + (Z.of_nat (nat_of_ascii c) - 48))
      else acc
  | EmptyString => acc
  end.

(** [atoi] on the digit strings the pattern of [--screen] lets through. *)
Definition atoi (s : string) : Z := atoi_digits s 0.

Definition set_server : Handler Settings := fun m st =>
  {| serverAddress := sub m 1;
     reverseFluxPolarity := reverseFluxPolarity st;
     windowWidth := windowWidth st;
     windowHeight := windowHeight st |}.

Definition set_polarity : Handler Settings := fun _ st =>
  {| serverAddress := serverAddress st;
     reverseFluxPolarity := true;
     windowWidth := windowWidth st;
     windowHeight := windowHeight st |}.

Definition set_screen : Handler Settings := fun m st =>
  {| serverAddress := serverAddress st;
     reverseFluxPolarity := reverseFluxPolarity st;
     windowWidth := atoi (sub m 1);
     windowHeight := atoi (sub m 2) |}.

(** The three descriptors of the example. *)
Definition descriptors : list (Descr Settings) :=
  [ {| pattern := "--server=(.*)";
       help := "address of server to connect to";
       handler := set_server |};
    {| pattern := "--reverseFluxPolarity";
       help := "operate with flux polarity reversed";
       handler := set_polarity |};
    {| pattern := "--screen=([0-9]+)x([0-9]+)";
       help := "screen width and height in pixels";
       handler := set_screen |} ].

(** The table they build. *)
Definition table : list (Opt Settings) :=
  match make_table descriptors with
  | Some opts => opts
  | None => []
  end.

(** A table with overlapping patterns: the second matches every token
    that starts with two dashes, [--help] and [--server=...] among them,
    and the third matches [--server=...] too. *)
Definition greedy_descriptors : list (Descr Settings) :=
  [ {| pattern := "--reverseFluxPolarity";
       help := "operate with flux polarity reversed";
       handler := set_polarity |};
    {| pattern := "--(.*)";
       help := "any long option";
       handler := set_screen |};
    {| pattern := "--server=(.*)";
       help := "address of server to connect to";
       handler := set_server |} ].

Definition greedy_table : list (Opt Settings) :=
  match make_table greedy_descriptors with
  | Some opts => opts
  | None => []
  end.

(** The caller's state and the two streams before the call. *)
Definition world0 : World Settings :=
  {| user := defaults; cout := ""; cerr := ""; calls := [] |}.

End Example.


(* ================================================================== *)
(** * Properties *)

(** ** [strcmp] *)

Lemma strcmp_refl (a : string) : strcmp a a = 0.
Proof.
  induction a as [|c a IH]; simpl; [reflexivity|].
  now rewrite Ascii.eqb_refl.
Qed.

Lemma strcmp_eq0 (a b : string) : strcmp a b = 0 <-> a = b.
Proof.
  split; [|intros ->; apply strcmp_refl].
  revert b; induction a as [|c a IH]; intros [|d b]; simpl; try discriminate.
  - reflexivity.
  - destruct (Ascii.eqb_spec c d) as [->|Hcd].
    + intros H; f_equal; auto.
    + destruct (N_of_ascii c <? N_of_ascii d)%N; discriminate.
Qed.

Lemma strcmp_help (arg : string) :
  (strcmp arg "--help" =? 0) = is_help arg.
Proof.
  unfold is_help.
  destruct (String.eqb_spec arg "--help") as [->|Hne].
  - reflexivity.
  - apply Z.eqb_neq. intros H. apply Hne. now apply strcmp_eq0.
Qed.

Lemma is_help_true (arg : string) : is_help arg = true <-> arg = "--help".
Proof. apply String.eqb_eq. Qed.

Lemma is_help_false (arg : string) : is_help arg = false <-> arg <> "--help".
Proof. apply String.eqb_neq. Qed.

(** ** The scan of the table and the loop over the arguments *)

Section Properties.

Context {L : RegexLib} {St : Type}.
Implicit Types (opts next pre post : list (Opt St)) (o : Opt St) (w : World St).
Implicit Types (arg : string) (m : cmatch).

Lemma accepts_true (arg : string) (o : Opt St) :
  accepts arg o = true <-> exists m, regex_match arg (r_ o) = Some m.
Proof.
  unfold accepts. destruct (regex_match arg (r_ o)) as [m|].
  - split; eauto.
  - split; [discriminate|intros [m Hm]; discriminate].
Qed.

Lemma accepts_false (arg : string) (o : Opt St) :
  accepts arg o = false <-> regex_match arg (r_ o) = None.
Proof.
  unfold accepts. destruct (regex_match arg (r_ o)); split; congruence.
Qed.

Lemma recognised_true (opts : list (Opt St)) (arg : string) :
  recognised opts arg = true <->
  exists o, In o opts /\ exists m, regex_match arg (r_ o) = Some m.
Proof.
  unfold recognised. rewrite existsb_exists.
  split; intros [o [Hin Ho]]; exists o; split; auto; now apply accepts_true.
Qed.

Lemma recognised_true_ex (opts : list (Opt St)) (arg : string) :
  recognised opts arg = true ->
  exists o m, In o opts /\ regex_match arg (r_ o) = Some m.
Proof.
  intros H. apply recognised_true in H as [o [Hin [m Hm]]]. eauto.
Qed.

Lemma recognised_false (opts : list (Opt St)) (arg : string) :
  recognised opts arg = false <->
  forall o, In o opts -> regex_match arg (r_ o) = None.
Proof.
  unfold recognised. split.
  - intros H o Hin. apply accepts_false.
    destruct (accepts arg o) eqn:E; [|reflexivity].
    rewrite <- H. symmetry. apply existsb_exists. eauto.
  - intros H. destruct (existsb (accepts arg) opts) eqn:E; [|reflexivity].
    apply existsb_exists in E as [o [Hin Ho]].
    apply accepts_true in Ho as [m Hm]. rewrite (H o Hin) in Hm. discriminate.
Qed.

(** No descriptor from the iterator on matches: the loop runs to
    [opts.end()], calls nothing and leaves [found] false. *)
Lemma scan_none (arg : string) (next : list (Opt St)) (pos : nat) (w : World St) :
  (forall o, In o next -> regex_match arg (r_ o) = None) ->
  scan arg next pos w = (false, w).
Proof.
  revert pos; induction next as [|o rest IH]; intros pos H; simpl.
  - reflexivity.
  - rewrite (H o (or_introl eq_refl)). apply IH. intros o' Hin. apply H. now right.
Qed.

(** The loop stops at the first descriptor that matches and calls its
    handler, whatever follows it in the table. *)
Lemma scan_first (arg : string) (pre : list (Opt St)) (o : Opt St) (post : list (Opt St))
  (m : cmatch) (pos : nat) (w : World St) :
  (forall o', In o' pre -> regex_match arg (r_ o') = None) ->
  regex_match arg (r_ o) = Some m ->
  scan arg (pre ++ o :: post)%list pos w
  = (true, invoke (pos + List.length pre) o m w).
Proof.
  revert pos; induction pre as [|p pre IH]; intros pos Hpre Ho; simpl.
  - rewrite Ho. now rewrite Nat.add_0_r.
  - rewrite (Hpre p (or_introl eq_refl)).
    rewrite IH; [|intros o' Hin; apply Hpre; now right|assumption].
    now rewrite Nat.add_succ_comm.
Qed.

(** The two outcomes of the scan are the only ones. *)
Lemma scan_cases (arg : string) (next : list (Opt St)) :
  (forall o, In o next -> regex_match arg (r_ o) = None)
  \/ (exists pre o post m,
        next = (pre ++ o :: post)%list
        /\ (forall o', In o' pre -> regex_match arg (r_ o') = None)
        /\ regex_match arg (r_ o) = Some m).
Proof.
  induction next as [|o rest IH].
  - left. intros o [].
  - destruct (regex_match arg (r_ o)) as [m|] eqn:Ho.
    + right. exists [], o, rest, m. repeat split; auto. intros o' [].
    + destruct IH as [Hnone|[pre [o1 [post [m [-> [Hpre Ho1]]]]]]].
      * left. intros o' [<-|Hin]; auto.
      * right. exists (o :: pre), o1, post, m. repeat split; auto.
        intros o' [<-|Hin]; auto.
Qed.

(** *** Strings *)

Lemma append_assoc (a b c : string) : (a ++ b) ++ c = a ++ (b ++ c).
Proof. induction a as [|x a IH]; simpl; [reflexivity|now rewrite IH]. Qed.

Lemma append_nil_r (a : string) : a ++ "" = a.
Proof. induction a as [|x a IH]; simpl; [reflexivity|now rewrite IH]. Qed.

Lemma concat_nosep_app (l1 l2 : list string) :
  String.concat "" (l1 ++ l2)%list = String.concat "" l1 ++ String.concat "" l2.
Proof.
  induction l1 as [|x l1 IH]; [reflexivity|].
  assert (Hc : forall l, String.concat "" (x :: l) = x ++ String.concat "" l).
  { intros [|y l]; simpl; [now rewrite append_nil_r|reflexivity]. }
  change ((x :: l1) ++ l2)%list with (x :: (l1 ++ l2)%list).
  now rewrite !Hc, IH, append_assoc.
Qed.

Lemma concat_nosep_cons (x : string) (l : list string) :
  String.concat "" (x :: l) = x ++ String.concat "" l.
Proof. destruct l; simpl; [now rewrite append_nil_r|reflexivity]. Qed.

(** *** The body of the loop over the arguments *)

(** The token [--help]: the table is not scanned. *)
Lemma arg_body_help opts (showUsage : bool) w arg :
  is_help arg = true -> arg_body arg opts showUsage w = (true, w).
Proof. intros H. unfold arg_body. now rewrite strcmp_help, H. Qed.

(** A token no descriptor matches. *)
Lemma arg_body_unrecognised opts (showUsage : bool) w arg :
  unrecognised opts arg = true ->
  arg_body arg opts showUsage w = (true, put_cerr (diagnostic arg) w).
Proof.
  unfold unrecognised. intros H. apply andb_prop in H as [Hh Hr].
  apply negb_true_iff in Hh, Hr.
  unfold arg_body. rewrite strcmp_help, Hh.
  rewrite scan_none; [reflexivity|]. now apply recognised_false.
Qed.

(** A token some descriptor matches: the handler of the first one. *)
Lemma arg_body_first opts (showUsage : bool) w arg pre o post m :
  is_help arg = false ->
  opts = (pre ++ o :: post)%list ->
  (forall o', In o' pre -> regex_match arg (r_ o') = None) ->
  regex_match arg (r_ o) = Some m ->
  arg_body arg opts showUsage w = (showUsage, invoke (List.length pre) o m w).
Proof.
  intros Hh -> Hpre Ho. unfold arg_body. rewrite strcmp_help, Hh.
  now rewrite (@scan_first arg pre o post m 0 w Hpre Ho).
Qed.

(** The first matching descriptor, as a position in the table. *)
Lemma first_match_split opts arg pre o post m :
  opts = (pre ++ o :: post)%list ->
  (forall o', In o' pre -> regex_match arg (r_ o') = None) ->
  regex_match arg (r_ o) = Some m ->
  first_match opts arg (List.length pre) m.
Proof.
  intros -> Hpre Ho. split.
  - exists o. split; [|assumption].
    rewrite nth_error_app2 by lia. now rewrite Nat.sub_diag.
  - intros k o' Hk Hnth. apply Hpre.
    rewrite nth_error_app1 in Hnth by assumption.
    eapply nth_error_In; eassumption.
Qed.

Lemma recognised_split opts arg pre o post m :
  opts = (pre ++ o :: post)%list ->
  regex_match arg (r_ o) = Some m ->
  recognised opts arg = true.
Proof.
  intros -> Ho. apply recognised_true. exists o. split; [|eauto].
  apply in_or_app. right. now left.
Qed.

(** *** From the loop on [argi] to the list of tokens *)

Lemma skipn_cons_nth (k : nat) (argv : list string) (a : string) (rest : list string) :
  skipn k argv = a :: rest -> nth k argv "" = a /\ skipn (S k) argv = rest.
Proof.
  revert argv; induction k as [|k IH]; intros [|x argv] H; simpl in *;
    try discriminate.
  - injection H as -> ->. now split.
  - destruct (IH argv H) as [H1 H2]. split; assumption.
Qed.

Lemma for_args_each_arg (args argv : list string) (k : nat) opts
  (showUsage : bool) w :
  skipn k argv = args ->
  for_args (List.length args) (Z.of_nat k) argv opts showUsage w
  = each_arg args opts showUsage w.
Proof.
  revert k showUsage w; induction args as [|a rest IH]; intros k su w Hk.
  - reflexivity.
  - destruct (skipn_cons_nth _ _ Hk) as [Ha Hrest]. simpl.
    unfold argv_at. rewrite Nat2Z.id, Ha.
    destruct (arg_body a opts su w) as [su1 w1].
    replace (Z.of_nat k + 1) with (Z.of_nat (S k)) by lia.
    now apply IH.
Qed.

(** [parseCmdLine] on a command line as the C runtime passes it. *)
Lemma parseCmdLine_each_arg (argv : list string) opts w :
  parseCmdLine (argc_of argv) argv opts w
  = let '(showUsage, w1) := each_arg (tokens argv) opts false w in
    if showUsage then (false, print_usage argv opts w1) else (true, w1).
Proof.
  unfold parseCmdLine, argc_of, tokens.
  replace (Z.to_nat (Z.of_nat (List.length argv) - 1)) with (List.length (tl argv))
    by (destruct argv; simpl List.length; lia).
  change 1 with (Z.of_nat 1).
  rewrite (@for_args_each_arg (tl argv) argv 1 opts false w)
    by (destruct argv; reflexivity).
  destruct (each_arg (tl argv) opts false w) as [[|] w1]; reflexivity.
Qed.

(** *** What the loop over the arguments does, token by token *)

(** The token either is [--help], or gets a diagnostic, or has the handler
    of its first matching descriptor called. *)
Lemma arg_body_cases opts (showUsage : bool) w arg :
  (is_help arg = true /\ arg_body arg opts showUsage w = (true, w))
  \/ (unrecognised opts arg = true /\ handled opts arg = false
      /\ arg_body arg opts showUsage w = (true, put_cerr (diagnostic arg) w))
  \/ (exists pos o m,
        is_help arg = false /\ handled opts arg = true
        /\ unrecognised opts arg = false
        /\ nth_error opts pos = Some o
        /\ first_match opts arg pos m
        /\ arg_body arg opts showUsage w = (showUsage, invoke pos o m w)).
Proof.
  destruct (is_help arg) eqn:Hh.
  - left. split; [reflexivity|now apply arg_body_help].
  - right. destruct (scan_cases arg opts)
      as [Hnone|[pre [o [post [m [Hsplit [Hpre Ho]]]]]]].
    + left. apply recognised_false in Hnone.
      assert (Hu : unrecognised opts arg = true)
        by (unfold unrecognised; now rewrite Hh, Hnone).
      repeat split; [assumption| |now apply arg_body_unrecognised].
      unfold handled. now rewrite Hh, Hnone.
    + right. exists (List.length pre), o, m.
      assert (Hr : recognised opts arg = true)
        by (eapply recognised_split; eassumption).
      assert (Hfm : first_match opts arg (List.length pre) m)
        by (eapply first_match_split; eassumption).
      repeat split; try apply Hfm.
      * unfold handled. now rewrite Hh, Hr.
      * unfold unrecognised. now rewrite Hh, Hr.
      * subst opts. rewrite nth_error_app2 by lia. now rewrite Nat.sub_diag.
      * now apply arg_body_first with (post := post).
Qed.

(** The whole loop: the flag, the two streams, the handler calls and the
    caller's state after it. *)
Lemma each_arg_spec (args : list string) opts (showUsage : bool) w :
  exists cs,
    each_arg args opts showUsage w
    = (showUsage || existsb (fun a => is_help a || negb (recognised opts a)) args,
       {| user := run_calls opts cs (user w);
          cout := cout w;
          cerr := cerr w
                  ++ String.concat "" (map diagnostic (filter (unrecognised opts) args));
          calls := (calls w ++ cs)%list |})
    /\ Forall2 (fun a c => first_match opts a (fst c) (snd c))
               (filter (handled opts) args) cs.
Proof.
  revert showUsage w; induction args as [|a rest IH]; intros su w.
  - exists []. split; [|constructor]. simpl.
    rewrite orb_false_r, append_nil_r, app_nil_r. now destruct w.
  - simpl each_arg.
    destruct (arg_body_cases opts su w a)
      as [[Hh ->]|[[Hu [Hd ->]]|[pos [o [m [Hh [Hd [Hu [Hnth [Hfm ->]]]]]]]]]].
    + destruct (IH true w) as [cs [-> HF]]. exists cs.
      assert (Hu : unrecognised opts a = false)
        by (unfold unrecognised; now rewrite Hh).
      assert (Hd : handled opts a = false)
        by (unfold handled; now rewrite Hh).
      simpl. rewrite Hh, Hu, Hd. simpl. rewrite orb_true_r. now split.
    + destruct (IH true (put_cerr (diagnostic a) w)) as [cs [-> HF]]. exists cs.
      unfold unrecognised in Hu. apply andb_prop in Hu as [Hh Hr].
      apply negb_true_iff in Hh, Hr.
      assert (Hu : unrecognised opts a = true)
        by (unfold unrecognised; now rewrite Hh, Hr).
      cbn [filter existsb map]. rewrite Hh, Hr, Hu, Hd.
      cbn [negb orb map]. rewrite orb_true_r.
      split; [|assumption]. f_equal. unfold put_cerr.
      cbn [user cout cerr calls]. f_equal.
      now rewrite concat_nosep_cons, append_assoc.
    + destruct (IH su (invoke pos o m w)) as [cs [-> HF]].
      exists ((pos, m) :: cs).
      assert (Hr : recognised opts a = true).
      { unfold handled in Hd. now rewrite Hh in Hd. }
      simpl. rewrite Hh, Hr, Hu, Hd, Hnth. simpl.
      split; [|constructor; assumption].
      f_equal. f_equal. now rewrite <- app_assoc.
Qed.

(** *** The usage listing *)

Lemma put_cout_put_cout (a b : string) w :
  put_cout b (put_cout a w) = put_cout (a ++ b) w.
Proof. unfold put_cout. cbn [user cout cerr calls]. now rewrite append_assoc. Qed.

Lemma print_help_text opts w :
  print_help opts w
  = put_cout (String.concat "" (map (fun o => help_ o ++ endl) opts)) w.
Proof.
  revert w; induction opts as [|o rest IH]; intros w.
  - unfold put_cout. simpl. rewrite append_nil_r. now destruct w.
  - cbn [print_help map]. rewrite IH, concat_nosep_cons.
    now rewrite !put_cout_put_cout, append_assoc.
Qed.

Lemma print_usage_text (argv : list string) opts w :
  print_usage argv opts w = put_cout (usage_text (argv_at argv 0) opts) w.
Proof.
  unfold print_usage, usage_text. rewrite print_help_text.
  now rewrite !put_cout_put_cout.
Qed.

(** *** The whole call *)

Lemma parseCmdLine_spec (argv : list string) opts w :
  exists cs,
    parseCmdLine (argc_of argv) argv opts w
    = (negb (usage_requested opts (tokens argv)),
       {| user := run_calls opts cs (user w);
          cout := cout w
                  ++ (if usage_requested opts (tokens argv)
                      then usage_text (argv_at argv 0) opts else "");
          cerr := cerr w
                  ++ String.concat ""
                       (map diagnostic (filter (unrecognised opts) (tokens argv)));
          calls := (calls w ++ cs)%list |})
    /\ Forall2 (fun a c => first_match opts a (fst c) (snd c))
               (filter (handled opts) (tokens argv)) cs.
Proof.
  destruct (each_arg_spec (tokens argv) opts false w) as [cs [Heq HF]].
  exists cs. split; [|assumption].
  rewrite parseCmdLine_each_arg, Heq. cbn [orb]. fold (usage_requested opts (tokens argv)).
  destruct (usage_requested opts (tokens argv)).
  - rewrite print_usage_text. reflexivity.
  - cbn [negb]. now rewrite append_nil_r.
Qed.

End Properties.

(** ** The model of [std::regex_match] matches whole strings *)

Module RegexFacts.

Import Regex.
Local Open Scope list_scope.

(** A repetition is empty or starts with a round that reads something. *)
Lemma lang_Star_cases (r : re) (w : list ascii) :
  lang r w ->
  forall x, r = Star x ->
  w = [] \/ exists u v, u <> [] /\ lang x u /\ lang (Star x) v /\ w = u ++ v.
Proof.
  intros H. induction H as [ | | | | | | | b | b u v Hu _ Hv IHv | ];
    intros x Heq; try discriminate.
  - now left.
  - injection Heq as ->. destruct u as [|c u].
    + simpl. now apply IHv.
    + right. exists (c :: u), v. repeat split; [discriminate|assumption..].
Qed.

Section Iterate.

Variable a : re.
Variable step : list ascii -> cmatch -> list (list ascii * cmatch).

Hypothesis step_sound :
  forall s m rest m', In (rest, m') (step s m) ->
  exists u, s = u ++ rest /\ lang a u.

Hypothesis step_complete :
  forall u, lang a u ->
  forall rest m, exists m', In (rest, m') (step (u ++ rest) m).

Lemma iterate_sound (n : nat) :
  forall s m rest m', In (rest, m') (iterate step n s m) ->
  exists u, s = u ++ rest /\ lang (Star a) u.
Proof.
  induction n as [|n IH]; intros s m rest m' Hin; simpl in Hin.
  - destruct Hin as [Heq|[]]. injection Heq as <- <-.
    exists []. split; [reflexivity|constructor].
  - apply in_app_or in Hin as [Hin|[Heq|[]]].
    + apply in_flat_map in Hin as [[s1 m1] [Hstep Hin]]. simpl in Hin.
      destruct (List.length s1 <? List.length s)%nat; [|contradiction].
      destruct (step_sound _ _ _ _ Hstep) as [u [-> Hu]].
      destruct (IH _ _ _ _ Hin) as [v [-> Hv]].
      exists (u ++ v). split; [now rewrite app_assoc|now constructor].
    + injection Heq as <- <-. exists []. split; [reflexivity|constructor].
Qed.

Lemma iterate_complete (n : nat) :
  forall w rest m, (List.length (w ++ rest) <= n)%nat -> lang (Star a) w ->
  exists m', In (rest, m') (iterate step n (w ++ rest) m).
Proof.
  induction n as [|n IH]; intros w rest m Hlen Hw.
  - destruct w as [|c w]; [|simpl in Hlen; lia].
    exists m. now left.
  - destruct (lang_Star_cases Hw eq_refl) as [->|[u [v [Hne [Hu [Hv ->]]]]]].
    + exists m. simpl. apply in_or_app. right. now left.
    + destruct (step_complete Hu (v ++ rest) m) as [m1 Hstep].
      rewrite <- app_assoc in Hlen |- *.
      assert (Hlt : (List.length (v ++ rest) < List.length (u ++ v ++ rest))%nat).
      { rewrite (length_app u). destruct u; [congruence|simpl; lia]. }
      destruct (IH v rest m1) as [m' Hin]; [lia|assumption|].
      exists m'. simpl. apply in_or_app. left.
      apply in_flat_map. exists (v ++ rest, m1). split; [assumption|].
      simpl. apply Nat.ltb_lt in Hlt. now rewrite Hlt.
Qed.

End Iterate.

(** Every result of the matcher leaves a rest of the input, and the part
    read before it is in the language of the pattern. *)
Lemma run_sound (r : re) :
  forall s m rest m', In (rest, m') (run r s m) ->
  exists u, s = u ++ rest /\ lang r u.
Proof.
  induction r as [ | c | | neg rs | a IHa b IHb | a IHa b IHb | a IHa | n a IHa ];
    intros s m rest m' Hin; simpl in Hin.
  - destruct Hin as [Heq|[]]. injection Heq as <- <-.
    exists []. split; [reflexivity|constructor].
  - destruct s as [|d s]; [contradiction|].
    destruct (Ascii.eqb_spec c d) as [<-|]; [|contradiction].
    destruct Hin as [Heq|[]]. injection Heq as <- <-.
    exists [c]. split; [reflexivity|constructor].
  - destruct s as [|d s]; [contradiction|].
    destruct (is_line_terminator d) eqn:E; [contradiction|].
    destruct Hin as [Heq|[]]. injection Heq as <- <-.
    exists [d]. split; [reflexivity|now constructor].
  - destruct s as [|d s]; [contradiction|].
    destruct (in_class neg rs d) eqn:E; [|contradiction].
    destruct Hin as [Heq|[]]. injection Heq as <- <-.
    exists [d]. split; [reflexivity|now constructor].
  - apply in_flat_map in Hin as [[s1 m1] [Ha Hb]]. simpl in Hb.
    destruct (IHa _ _ _ _ Ha) as [u [-> Hu]].
    destruct (IHb _ _ _ _ Hb) as [v [-> Hv]].
    exists (u ++ v). split; [now rewrite app_assoc|now constructor].
  - apply in_app_or in Hin as [Hin|Hin].
    + destruct (IHa _ _ _ _ Hin) as [u [-> Hu]]. exists u. split; [reflexivity|].
      now apply lang_Alt_l.
    + destruct (IHb _ _ _ _ Hin) as [u [-> Hu]]. exists u. split; [reflexivity|].
      now apply lang_Alt_r.
  - eapply iterate_sound; eassumption.
  - apply in_map_iff in Hin as [[s1 m1] [Heq Hin]]. simpl in Heq.
    injection Heq as <- <-.
    destruct (IHa _ _ _ _ Hin) as [u [-> Hu]].
    exists u. split; [reflexivity|now constructor].
Qed.

(** Every string of the language, followed by anything, is read by some
    result of the matcher. *)
Lemma run_complete (r : re) :
  forall u, lang r u ->
  forall rest m, exists m', In (rest, m') (run r (u ++ rest) m).
Proof.
  induction r as [ | c | | neg rs | a IHa b IHb | a IHa b IHb | a IHa | n a IHa ];
    intros u Hu rest m.
  - inversion Hu; subst. exists m. now left.
  - inversion Hu; subst. exists m. simpl. rewrite Ascii.eqb_refl. now left.
  - inversion Hu as [ | |c Hc| | | | | | | ]; subst.
    exists m. simpl. rewrite Hc. now left.
  - inversion Hu as [ | | |neg' rs' c Hc| | | | | | ]; subst.
    exists m. simpl. rewrite Hc. now left.
  - inversion Hu as [ | | | |a' b' u1 u2 H1 H2| | | | | ]; subst.
    destruct (IHa _ H1 (u2 ++ rest) m) as [m1 Hin1].
    destruct (IHb _ H2 rest m1) as [m2 Hin2].
    exists m2. simpl. rewrite <- app_assoc.
    apply in_flat_map. exists (u2 ++ rest, m1). now split.
  - inversion Hu as [ | | | | |a' b' u' H1|a' b' u' H1| | | ]; subst.
    + destruct (IHa _ H1 rest m) as [m1 Hin]. exists m1.
      simpl. apply in_or_app. now left.
    + destruct (IHb _ H1 rest m) as [m1 Hin]. exists m1.
      simpl. apply in_or_app. now right.
  - simpl. apply iterate_complete with (a := a); auto.
  - inversion Hu as [ | | | | | | | | |n' a' u' H1]; subst.
    destruct (IHa _ H1 rest m) as [m1 Hin].
    exists (set_group n (consumed (u ++ rest) rest) m1). simpl.
    apply in_map_iff. exists (rest, m1). now split.
Qed.

(** [regex_match] succeeds on the strings of the language of the pattern,
    taken whole, and on no other. *)
Lemma regex_match_correct (s : string) (r : regex) :
  (exists m, regex_match s r = Some m) <-> matches r s.
Proof.
  unfold regex_match, matches.
  set (input := list_ascii_of_string s).
  set (m0 := repeat None (S (mark_count r))).
  set (whole := fun x : list ascii * cmatch =>
                  match fst x with [] => true | _ :: _ => false end).
  split.
  - intros [m Hm]. destruct (find whole (run (ast r) input m0)) as [[rest m1]|] eqn:E;
      [|discriminate].
    apply find_some in E as [Hin Hw]. unfold whole in Hw. simpl in Hw.
    destruct rest; [|discriminate].
    destruct (run_sound _ _ _ _ _ Hin) as [u [Heq Hu]].
    rewrite app_nil_r in Heq. now rewrite Heq.
  - intros Hlang. destruct (run_complete Hlang [] m0) as [m1 Hin].
    rewrite app_nil_r in Hin.
    destruct (find whole (run (ast r) input m0)) as [x|] eqn:E; [eauto|].
    pose proof (find_none _ _ E _ Hin) as Hn. discriminate.
Qed.

End RegexFacts.

(** The model of [std::regex] with the meaning of its patterns. *)
#[export] Instance StdRegexSemantics : RegexSemantics StdRegex := {|
  matches := Regex.matches;
  regex_match_whole := RegexFacts.regex_match_correct
|}.

(* ================================================================== *)
(** * The contract of [parseCmdLine] *)

Lemma usage_requested_false {L : RegexLib} {St : Type}
  (opts : list (Opt St)) (args : list string) :
  usage_requested opts args = false <->
  (forall arg, In arg args ->
     exists o m, In o opts /\ regex_match arg (r_ o) = Some m)
  /\ ~ In "--help" args.
Proof.
  unfold usage_requested. split.
  - intros H. split.
    + intros arg Hin.
      destruct (recognised opts arg) eqn:Hr.
      * apply recognised_true in Hr as [o [Ho [m Hm]]]. eauto.
      * assert (Hex : existsb (fun a => is_help a || negb (recognised opts a)) args
                      = true).
        { apply existsb_exists. exists arg. split; [assumption|].
          rewrite Hr. apply orb_true_r. }
        congruence.
    + intros Hin.
      assert (Hex : existsb (fun a => is_help a || negb (recognised opts a)) args
                    = true).
      { apply existsb_exists. exists "--help". split; [assumption|reflexivity]. }
      congruence.
  - intros [Hall Hno].
    destruct (existsb _ args) eqn:E; [|reflexivity].
    apply existsb_exists in E as [arg [Hin Hbad]].
    apply orb_prop in Hbad as [Hh|Hr].
    + apply is_help_true in Hh. subst arg. contradiction.
    + apply negb_true_iff in Hr.
      destruct (Hall arg Hin) as [o [m [Ho Hm]]].
      assert (recognised opts arg = true)
        by (apply recognised_true; eauto).
      congruence.
Qed.

(** C1.  [parseCmdLine] returns true if and only if every argument token
    (the program name excluded) is matched by the pattern of some
    descriptor and no token is the literal [--help]; in every other case
    it returns false. *)
Theorem C1_parseCmdLine_true_iff {L : RegexLib} {St : Type}
  (argv : list string) (opts : list (Opt St)) (w : World St) :
  let result := fst (parseCmdLine (argc_of argv) argv opts w) in
  let all_valid :=
    (forall arg, In arg (tokens argv) ->
       exists o m, In o opts /\ regex_match arg (r_ o) = Some m)
    /\ ~ In "--help" (tokens argv) in
  (result = true <-> all_valid) /\ (result = false <-> ~ all_valid).
Proof.
  intros result all_valid.
  assert (Hres : result = negb (usage_requested opts (tokens argv))).
  { unfold result. destruct (parseCmdLine_spec argv opts w) as [cs [-> _]].
    reflexivity. }
  assert (Hiff : result = true <-> all_valid).
  { rewrite Hres, negb_true_iff. apply usage_requested_false. }
  split; [exact Hiff|].
  destruct result; split; intros H; try discriminate; try reflexivity.
  - exfalso. apply H. now apply Hiff.
  - intros Hv. apply Hiff in Hv. discriminate.
Qed.

(** C10.  With no token after the program name ([argc] at most 1)
    [parseCmdLine] returns true and leaves everything as it was: no
    handler is called and nothing is written to either stream, whatever
    the table, the empty one included. *)
Theorem C10_no_argument {L : RegexLib} {St : Type}
  (argc : Z) (argv : list string) (opts : list (Opt St)) (w : World St) :
  argc <= 1 ->
  parseCmdLine argc argv opts w = (true, w).
Proof.
  intros Hargc. unfold parseCmdLine.
  replace (Z.to_nat (argc - 1)) with O by lia. reflexivity.
Qed.

Lemma C10_no_argument_witness :
  1 <= 1
  /\ parseCmdLine 1 ["prog"] Example.table Example.world0 = (true, Example.world0)
  /\ parseCmdLine 1 ["prog"] (@nil (Opt Example.Settings)) Example.world0
     = (true, Example.world0).
Proof.
  split; [lia|]. split; apply C10_no_argument; lia.
Defined.

(** A list cut at one of its positions. *)
Lemma split_nth_error {A : Type} (l : list A) (k : nat) (x : A) :
  nth_error l k = Some x ->
  l = (firstn k l ++ x :: skipn (S k) l)%list.
Proof.
  revert l; induction k as [|k IH]; intros [|y l] H; simpl in H; try discriminate.
  - now injection H as ->.
  - simpl. f_equal. now apply IH.
Qed.

(** A fact computed on the entry at a position holds of that entry. *)
Lemma nth_error_eval {A B : Type} (f : A -> B) (l : list A) (k : nat)
  (x : A) (b : B) :
  nth_error l k = Some x ->
  option_map f (nth_error l k) = Some b ->
  f x = b.
Proof. intros ->. simpl. now intros [= ->]. Qed.

(** C2.  For a token that is not [--help], the table is scanned in
    registration order: when the descriptors before [o] do not match the
    token and [o] does, the handler of [o], and no other, is called, once,
    with the results of that match, whatever descriptors follow [o] in
    the table and whether or not their patterns match too. *)
Theorem C2_first_match_wins {L : RegexLib} {St : Type}
  (arg : string) (pre : list (Opt St)) (o : Opt St) (post : list (Opt St))
  (m : cmatch) (showUsage : bool) (w : World St) :
  arg <> "--help" ->
  (forall o', In o' pre -> regex_match arg (r_ o') = None) ->
  regex_match arg (r_ o) = Some m ->
  arg_body arg (pre ++ o :: post)%list showUsage w
  = (showUsage,
     {| user := h_ o m (user w);
        cout := cout w;
        cerr := cerr w;
        calls := (calls w ++ [(List.length pre, m)])%list |}).
Proof.
  intros Hne Hpre Ho.
  apply arg_body_first with (post := post); auto.
  now apply is_help_false.
Qed.

Lemma C2_first_match_wins_witness :
  exists pre o post m,
    Example.greedy_table = (pre ++ o :: post)%list
    /\ List.length pre = 1%nat
    /\ m = [Some "--server=a"; Some "server=a"]
    /\ (exists o2 m2, In o2 post /\ regex_match "--server=a" (r_ o2) = Some m2)
    /\ arg_body "--server=a" (pre ++ o :: post)%list false Example.world0
       = (false,
          {| user := h_ o m (user Example.world0);
             cout := cout Example.world0;
             cerr := cerr Example.world0;
             calls := (calls Example.world0 ++ [(List.length pre, m)])%list |}).
Proof.
  destruct (nth_error Example.greedy_table 1) as [o|] eqn:E.
  2: { apply nth_error_None in E. vm_compute in E. lia. }
  exists (firstn 1 Example.greedy_table), o, (skipn 2 Example.greedy_table),
         [Some "--server=a"; Some "server=a"].
  assert (Ho : regex_match "--server=a" (r_ o)
               = Some [Some "--server=a"; Some "server=a"]).
  { apply (nth_error_eval (fun x => regex_match "--server=a" (r_ x)) _ _ E).
    vm_compute. reflexivity. }
  split; [now apply split_nth_error|].
  split; [vm_compute; reflexivity|]. split; [reflexivity|]. split.
  - apply recognised_true_ex. vm_compute. reflexivity.
  - apply C2_first_match_wins.
    + discriminate.
    + apply recognised_false. vm_compute. reflexivity.
    + exact Ho.
Defined.

(** C9.  The iteration of the loop on a token equal to [--help] sets
    [showUsage] and does nothing else: the table is not scanned and no
    handler is called, whatever the table, so also when the pattern of a
    descriptor matches the string [--help].  Over the whole call, the
    handler calls correspond one to one, in order, to tokens that are not
    [--help]. *)
Theorem C9_help_calls_no_handler {L : RegexLib} {St : Type}
  (argv : list string) (opts : list (Opt St)) (w : World St) :
  (forall (n : nat) (argi : Z) (showUsage : bool),
     argv_at argv argi = "--help" ->
     for_args (S n) argi argv opts showUsage w
     = for_args n (argi + 1) argv opts true w)
  /\ (exists cs,
        calls (snd (parseCmdLine (argc_of argv) argv opts w))
        = (calls w ++ cs)%list
        /\ user (snd (parseCmdLine (argc_of argv) argv opts w))
           = run_calls opts cs (user w)
        /\ Forall2 (fun a c => a <> "--help" /\ first_match opts a (fst c) (snd c))
                   (filter (handled opts) (tokens argv)) cs).
Proof.
  split.
  - intros n argi su Hhelp. cbn [for_args]. rewrite Hhelp.
    now rewrite arg_body_help.
  - destruct (parseCmdLine_spec argv opts w) as [cs [-> HF]].
    exists cs. repeat split.
    revert HF. generalize (tokens argv). intros l; revert cs.
    induction l as [|a l IH]; intros cs HF; simpl in *.
    + inversion HF. constructor.
    + destruct (handled opts a) eqn:Hd; [|now apply IH].
      inversion HF as [|a' c l' cs' Hfm HF']; subst. constructor.
      * split; [|assumption]. apply is_help_false.
        unfold handled in Hd. apply andb_prop in Hd as [Hd _].
        now apply negb_true_iff in Hd.
      * now apply IH.
Qed.

(** In [Example.greedy_table] the second pattern matches the token
    [--help]; the call returns with no handler called. *)
Lemma C9_help_calls_no_handler_example :
  (exists o m, In o Example.greedy_table /\ regex_match "--help" (r_ o) = Some m)
  /\ parseCmdLine 2 ["prog"; "--help"] Example.greedy_table Example.world0
     = (false,
        {| user := Example.defaults;
           cout := usage_text "prog" Example.greedy_table;
           cerr := "";
           calls := [] |}).
Proof.
  split.
  - apply recognised_true_ex. vm_compute. reflexivity.
  - vm_compute. reflexivity.
Qed.

(** C3.  When some token is [--help], [parseCmdLine] returns false and
    writes the usage listing to the standard output, whatever the other
    tokens; the other tokens are processed as usual: each one that some
    descriptor matches has the handler of its first matching descriptor
    called, in argument order, and each one that none matches gets its
    diagnostic. *)
Theorem C3_help_forces_usage {L : RegexLib} {St : Type}
  (argv : list string) (opts : list (Opt St)) (w : World St) :
  In "--help" (tokens argv) ->
  exists cs,
    parseCmdLine (argc_of argv) argv opts w
    = (false,
       {| user := run_calls opts cs (user w);
          cout := cout w ++ usage_text (argv_at argv 0) opts;
          cerr := cerr w
                  ++ String.concat ""
                       (map diagnostic (filter (unrecognised opts) (tokens argv)));
          calls := (calls w ++ cs)%list |})
    /\ Forall2 (fun a c => first_match opts a (fst c) (snd c))
               (filter (handled opts) (tokens argv)) cs.
Proof.
  intros Hin.
  destruct (parseCmdLine_spec argv opts w) as [cs [Heq HF]].
  exists cs. split; [|assumption]. rewrite Heq.
  assert (Hu : usage_requested opts (tokens argv) = true).
  { apply existsb_exists. exists "--help". split; [assumption|reflexivity]. }
  now rewrite Hu.
Qed.

Lemma C3_help_forces_usage_witness :
  let argv := ["prog"; "--screen=800x600"; "--help"; "--bogus"] in
  In "--help" (tokens argv)
  /\ exists cs,
       parseCmdLine (argc_of argv) argv Example.table Example.world0
       = (false,
          {| user := run_calls Example.table cs (user Example.world0);
             cout := cout Example.world0
                     ++ usage_text (argv_at argv 0) Example.table;
             cerr := cerr Example.world0
                     ++ String.concat ""
                          (map diagnostic
                             (filter (unrecognised Example.table) (tokens argv)));
             calls := (calls Example.world0 ++ cs)%list |})
       /\ Forall2 (fun a c => first_match Example.table a (fst c) (snd c))
                  (filter (handled Example.table) (tokens argv)) cs.
Proof.
  intros argv.
  assert (Hin : In "--help" (tokens argv)) by (right; left; reflexivity).
  split; [exact Hin|]. exact (C3_help_forces_usage argv Example.table Example.world0 Hin).
Defined.

(** The same call, evaluated. *)
Example C3_help_forces_usage_run :
  parseCmdLine 4 ["prog"; "--screen=800x600"; "--help"; "--bogus"]
    Example.table Example.world0
  = (false,
     {| user := {| Example.serverAddress := "localhost:10000";
                   Example.reverseFluxPolarity := false;
                   Example.windowWidth := 800;
                   Example.windowHeight := 600 |};
        cout := usage_text "prog" Example.table;
        cerr := diagnostic "--bogus";
        calls := [(2%nat, [Some "--screen=800x600"; Some "800"; Some "600"])] |}).
Proof. vm_compute. reflexivity. Qed.

Lemma unrecognised_true {L : RegexLib} {St : Type}
  (opts : list (Opt St)) (arg : string) :
  unrecognised opts arg = true <->
  arg <> "--help" /\ forall o, In o opts -> regex_match arg (r_ o) = None.
Proof.
  unfold unrecognised. rewrite andb_true_iff, !negb_true_iff.
  now rewrite is_help_false, recognised_false.
Qed.

Lemma handled_true {L : RegexLib} {St : Type}
  (opts : list (Opt St)) (arg : string) :
  handled opts arg = true <->
  arg <> "--help" /\ exists o m, In o opts /\ regex_match arg (r_ o) = Some m.
Proof.
  unfold handled. rewrite andb_true_iff, negb_true_iff, is_help_false.
  rewrite recognised_true. split; intros [Hh [o H]]; (split; [assumption|]).
  - destruct H as [Ho [m Hm]]. eauto.
  - destruct H as [m [Ho Hm]]. eauto.
Qed.

(** C4, as the code has it.  When some token is matched by no descriptor,
    [parseCmdLine] returns false; it writes the diagnostic
    [Unrecognised option: <token>] to the standard error for each such
    token that is not [--help], in argument order, and goes on with the
    tokens that follow (their handlers are called); the usage listing is
    written once, whatever the number of such tokens. *)
Theorem C4_unrecognised_tokens {L : RegexLib} {St : Type}
  (argv : list string) (opts : list (Opt St)) (w : World St) :
  (exists arg, In arg (tokens argv)
               /\ forall o, In o opts -> regex_match arg (r_ o) = None) ->
  (forall a, unrecognised opts a = true <->
             a <> "--help" /\ forall o, In o opts -> regex_match a (r_ o) = None)
  /\ exists cs,
       parseCmdLine (argc_of argv) argv opts w
       = (false,
          {| user := run_calls opts cs (user w);
             cout := cout w ++ usage_text (argv_at argv 0) opts;
             cerr := cerr w
                     ++ String.concat ""
                          (map diagnostic (filter (unrecognised opts) (tokens argv)));
             calls := (calls w ++ cs)%list |})
       /\ Forall2 (fun a c => first_match opts a (fst c) (snd c))
                  (filter (handled opts) (tokens argv)) cs.
Proof.
  intros [arg [Hin Hnone]]. split; [intros a; apply unrecognised_true|].
  destruct (parseCmdLine_spec argv opts w) as [cs [Heq HF]].
  exists cs. split; [|assumption]. rewrite Heq.
  assert (Hu : usage_requested opts (tokens argv) = true).
  { apply existsb_exists. exists arg. split; [assumption|].
    apply recognised_false in Hnone. rewrite Hnone. apply orb_true_r. }
  now rewrite Hu.
Qed.

Lemma C4_unrecognised_tokens_witness :
  let argv := ["prog"; "--bogus"; "--server=a"; "--help"; "--wrong"] in
  (exists arg, In arg (tokens argv)
               /\ forall o, In o Example.table -> regex_match arg (r_ o) = None)
  /\ exists cs,
       parseCmdLine (argc_of argv) argv Example.table Example.world0
       = (false,
          {| user := run_calls Example.table cs (user Example.world0);
             cout := cout Example.world0
                     ++ usage_text (argv_at argv 0) Example.table;
             cerr := cerr Example.world0
                     ++ String.concat ""
                          (map diagnostic
                             (filter (unrecognised Example.table) (tokens argv)));
             calls := (calls Example.world0 ++ cs)%list |})
       /\ Forall2 (fun a c => first_match Example.table a (fst c) (snd c))
                  (filter (handled Example.table) (tokens argv)) cs.
Proof.
  intros argv.
  assert (Hex : exists arg, In arg (tokens argv)
                  /\ forall o, In o Example.table -> regex_match arg (r_ o) = None).
  { exists "--bogus". split; [left; reflexivity|].
    apply recognised_false. vm_compute. reflexivity. }
  split; [exact Hex|].
  exact (proj2 (C4_unrecognised_tokens argv Example.table Example.world0 Hex)).
Defined.

(** The same call, evaluated: two diagnostics, none for [--help], one
    usage listing, and the handler of [--server] called. *)
Example C4_unrecognised_tokens_run :
  parseCmdLine 5 ["prog"; "--bogus"; "--server=a"; "--help"; "--wrong"]
    Example.table Example.world0
  = (false,
     {| user := {| Example.serverAddress := "a";
                   Example.reverseFluxPolarity := false;
                   Example.windowWidth := 1280;
                   Example.windowHeight := 1024 |};
        cout := usage_text "prog" Example.table;
        cerr := diagnostic "--bogus" ++ diagnostic "--wrong";
        calls := [(0%nat, [Some "--server=a"; Some "a"])] |}).
Proof. vm_compute. reflexivity. Qed.

(** C4 as the specification words it fails on the command line
    [prog --help] with the table of the example: the token [--help] is
    matched by no descriptor, and nothing is written to the standard
    error, where the claim has the diagnostic of every token that no
    descriptor matches. *)
Lemma C4_counterexample :
  let argv := ["prog"; "--help"] in
  let w' := snd (parseCmdLine (argc_of argv) argv Example.table Example.world0) in
  (In "--help" (tokens argv)
   /\ forall o, In o Example.table -> regex_match "--help" (r_ o) = None)
  /\ cerr w' = ""
  /\ cerr w'
     <> cerr Example.world0
        ++ String.concat ""
             (map diagnostic
                (filter (fun a => negb (recognised Example.table a)) (tokens argv))).
Proof.
  intros argv w'. split; [split|split].
  - left. reflexivity.
  - apply recognised_false. vm_compute. reflexivity.
  - vm_compute. reflexivity.
  - vm_compute. discriminate.
Qed.

(** C5, as the code has it.  When every token is different from [--help]
    and is matched by some descriptor, [parseCmdLine] returns true, writes
    nothing, and calls one handler for each token, in argument order: the
    handler of the first descriptor that matches the token. *)
Theorem C5_all_tokens_valid {L : RegexLib} {St : Type}
  (argv : list string) (opts : list (Opt St)) (w : World St) :
  (forall arg, In arg (tokens argv) ->
     arg <> "--help"
     /\ exists o m, In o opts /\ regex_match arg (r_ o) = Some m) ->
  exists cs,
    parseCmdLine (argc_of argv) argv opts w
    = (true,
       {| user := run_calls opts cs (user w);
          cout := cout w;
          cerr := cerr w;
          calls := (calls w ++ cs)%list |})
    /\ Forall2 (fun a c => first_match opts a (fst c) (snd c)) (tokens argv) cs.
Proof.
  intros Hall.
  destruct (parseCmdLine_spec argv opts w) as [cs [Heq HF]].
  exists cs.
  assert (Hh : forall a, In a (tokens argv) -> handled opts a = true)
    by (intros a Ha; apply handled_true; auto).
  assert (Hf : filter (handled opts) (tokens argv) = tokens argv).
  { clear - Hh. induction (tokens argv) as [|a l IH]; [reflexivity|].
    simpl. rewrite (Hh a (or_introl eq_refl)). f_equal. apply IH.
    intros b Hb. apply Hh. now right. }
  assert (Hn : filter (unrecognised opts) (tokens argv) = []).
  { clear - Hh. induction (tokens argv) as [|a l IH]; [reflexivity|].
    simpl. pose proof (Hh a (or_introl eq_refl)) as Ha.
    unfold handled in Ha. apply andb_prop in Ha as [Ha1 Ha2].
    unfold unrecognised. rewrite Ha1, Ha2. simpl. apply IH.
    intros b Hb. apply Hh. now right. }
  assert (Hu : usage_requested opts (tokens argv) = false).
  { apply usage_requested_false. split.
    - intros a Ha. now apply Hall.
    - intros Hin. now destruct (Hall _ Hin). }
  rewrite Hf in HF. split; [|assumption].
  rewrite Heq, Hu, Hn. cbn [negb map String.concat].
  now rewrite !append_nil_r.
Qed.

Lemma C5_all_tokens_valid_witness :
  let argv := ["prog"; "--server=host:1"; "--reverseFluxPolarity"] in
  (forall arg, In arg (tokens argv) ->
     arg <> "--help"
     /\ exists o m, In o Example.table /\ regex_match arg (r_ o) = Some m)
  /\ exists cs,
       parseCmdLine (argc_of argv) argv Example.table Example.world0
       = (true,
          {| user := run_calls Example.table cs (user Example.world0);
             cout := cout Example.world0;
             cerr := cerr Example.world0;
             calls := (calls Example.world0 ++ cs)%list |})
       /\ Forall2 (fun a c => first_match Example.table a (fst c) (snd c))
                  (tokens argv) cs.
Proof.
  intros argv.
  assert (Hall : forall arg, In arg (tokens argv) ->
            arg <> "--help"
            /\ exists o m, In o Example.table /\ regex_match arg (r_ o) = Some m).
  { intros arg Hin. apply handled_true.
    destruct Hin as [<-|[<-|[]]]; vm_compute; reflexivity. }
  split; [exact Hall|].
  exact (C5_all_tokens_valid argv Example.table Example.world0 Hall).
Defined.

(** The example of the specification: address set to [host:1], flag set. *)
Example C5_all_tokens_valid_run :
  parseCmdLine 3 ["prog"; "--server=host:1"; "--reverseFluxPolarity"]
    Example.table Example.world0
  = (true,
     {| user := {| Example.serverAddress := "host:1";
                   Example.reverseFluxPolarity := true;
                   Example.windowWidth := 1280;
                   Example.windowHeight := 1024 |};
        cout := "";
        cerr := "";
        calls := [(0%nat, [Some "--server=host:1"; Some "host:1"]);
                  (1%nat, [Some "--reverseFluxPolarity"])] |}).
Proof. vm_compute. reflexivity. Qed.

(** C5 as the specification words it fails on the command line
    [prog --help] with [Example.greedy_table]: the only token is matched
    by the second descriptor of the table, and the call returns false
    with no handler called. *)
Lemma C5_counterexample :
  let argv := ["prog"; "--help"] in
  let r := parseCmdLine (argc_of argv) argv Example.greedy_table Example.world0 in
  (forall arg, In arg (tokens argv) ->
     exists o m, In o Example.greedy_table /\ regex_match arg (r_ o) = Some m)
  /\ fst r = false
  /\ calls (snd r) = [].
Proof.
  intros argv r. split; [|split; vm_compute; reflexivity].
  intros arg [<-|[]]. apply recognised_true_ex. vm_compute. reflexivity.
Qed.

(** The help lines of a table built by the constructor of [Opt]. *)
Lemma make_table_help_lines {L : RegexLib} {St : Type}
  (ds : list (Descr St)) :
  forall opts, make_table ds = Some opts ->
  map (fun o => help_ o ++ endl) opts
  = map (fun d => "  " ++ pattern d ++ ":" ++ tab ++ help d ++ endl) ds.
Proof.
  induction ds as [|d ds IH]; intros opts H; simpl in H.
  - now injection H as <-.
  - unfold Opt_ctor in H.
    destruct (std_regex (pattern d)) as [r|]; [|discriminate].
    destruct (make_table ds) as [os|]; [|discriminate].
    injection H as <-. cbn [map help_]. f_equal; [|now apply IH].
    simpl. now rewrite append_assoc.
Qed.

(** C6.  Whenever usage is requested, which is whenever [parseCmdLine]
    returns false, what the call writes to the standard output is the
    line [Usage: <program name>], then one line [  <pattern>:<tab><help>]
    for each descriptor in table order, then an empty line. *)
Theorem C6_usage_output {L : RegexLib} {St : Type}
  (ds : list (Descr St)) (opts : list (Opt St))
  (argv : list string) (w : World St) :
  make_table ds = Some opts ->
  fst (parseCmdLine (argc_of argv) argv opts w) = false ->
  cout (snd (parseCmdLine (argc_of argv) argv opts w))
  = cout w
    ++ "Usage: " ++ argv_at argv 0 ++ endl
    ++ String.concat ""
         (map (fun d => "  " ++ pattern d ++ ":" ++ tab ++ help d ++ endl) ds)
    ++ endl.
Proof.
  intros Htable.
  destruct (parseCmdLine_spec argv opts w) as [cs [-> _]].
  cbn [fst snd cout]. intros Hres. apply negb_false_iff in Hres.
  rewrite Hres. unfold usage_text.
  now rewrite (make_table_help_lines ds Htable).
Qed.

Lemma C6_usage_output_witness :
  let argv := ["prog"; "--help"] in
  make_table Example.descriptors = Some Example.table
  /\ fst (parseCmdLine (argc_of argv) argv Example.table Example.world0) = false
  /\ cout (snd (parseCmdLine (argc_of argv) argv Example.table Example.world0))
     = cout Example.world0
       ++ "Usage: " ++ argv_at argv 0 ++ endl
       ++ String.concat ""
            (map (fun d => "  " ++ pattern d ++ ":" ++ tab ++ help d ++ endl)
                 Example.descriptors)
       ++ endl.
Proof.
  intros argv.
  assert (Ht : make_table Example.descriptors = Some Example.table)
    by reflexivity.
  assert (Hr : fst (parseCmdLine (argc_of argv) argv Example.table Example.world0)
               = false) by (vm_compute; reflexivity).
  split; [exact Ht|]. split; [exact Hr|].
  exact (C6_usage_output Example.descriptors argv Example.world0 Ht Hr).
Defined.

(** The listing of the example. *)
Example C6_usage_output_run :
  cout (snd (parseCmdLine 2 ["prog"; "--help"] Example.table Example.world0))
  = "Usage: prog" ++ endl
    ++ "  --server=(.*):" ++ tab ++ "address of server to connect to" ++ endl
    ++ "  --reverseFluxPolarity:" ++ tab ++ "operate with flux polarity reversed" ++ endl
    ++ "  --screen=([0-9]+)x([0-9]+):" ++ tab ++ "screen width and height in pixels" ++ endl
    ++ endl.
Proof. vm_compute. reflexivity. Qed.

(** C7.  A descriptor counts as matching a token only when its pattern
    matches the whole token: a descriptor at which the scan stops and
    whose handler it calls matches the entire token, and a descriptor
    whose pattern matches a part of the token and not the token as a
    whole is passed over like any descriptor that does not match (the
    scan goes on with the next one, and a token for which this was the
    only descriptor is reported as unrecognised). *)
Theorem C7_whole_token_match {L : RegexLib} {Sem : RegexSemantics L} {St : Type}
  (arg : string) (pos : nat) (w : World St) :
  (forall (next : list (Opt St)) (w' : World St),
     scan arg next pos w = (true, w') ->
     exists k o m,
       nth_error next k = Some o
       /\ matches (r_ o) arg
       /\ regex_match arg (r_ o) = Some m
       /\ w' = invoke (pos + k) o m w)
  /\ (forall (o : Opt St) (rest : list (Opt St)) (showUsage : bool),
        (exists pre mid post,
           arg = pre ++ mid ++ post /\ matches (r_ o) mid) ->
        ~ matches (r_ o) arg ->
        scan arg (o :: rest) pos w = scan arg rest (S pos) w
        /\ (arg <> "--help" ->
            arg_body arg [o] showUsage w
            = (true, put_cerr (diagnostic arg) w))).
Proof.
  split.
  - intros next w' Hscan.
    destruct (scan_cases arg next)
      as [Hnone|[pre [o [post [m [-> [Hpre Ho]]]]]]].
    + rewrite (scan_none _ _ pos w Hnone) in Hscan. discriminate.
    + rewrite (@scan_first _ _ arg pre o post m pos w Hpre Ho) in Hscan.
      injection Hscan as <-.
      exists (List.length pre), o, m. repeat split.
      * rewrite nth_error_app2 by lia. now rewrite Nat.sub_diag.
      * apply regex_match_whole. eauto.
      * assumption.
  - intros o rest su _ Hnot.
    assert (Hnone : regex_match arg (r_ o) = None).
    { destruct (regex_match arg (r_ o)) as [m|] eqn:E; [|reflexivity].
      exfalso. apply Hnot. apply regex_match_whole. eauto. }
    split.
    + simpl. now rewrite Hnone.
    + intros Hne. apply arg_body_unrecognised.
      apply unrecognised_true. split; [assumption|].
      intros o' [<-|[]]. assumption.
Qed.

Lemma C7_whole_token_match_witness :
  let arg := "--reverseFluxPolarity=1" in
  exists o : Opt Example.Settings,
    nth_error Example.table 1 = Some o
    /\ (exists pre mid post, arg = pre ++ mid ++ post /\ matches (r_ o) mid)
    /\ ~ matches (r_ o) arg
    /\ scan arg [o] 0 Example.world0 = scan arg [] 1 Example.world0
    /\ arg_body arg [o] false Example.world0
       = (true, put_cerr (diagnostic arg) Example.world0).
Proof.
  intros arg.
  destruct (nth_error Example.table 1) as [o|] eqn:E.
  2: { apply nth_error_None in E. vm_compute in E. lia. }
  exists o. split; [reflexivity|].
  assert (Hpart : exists pre mid post,
             arg = pre ++ mid ++ post /\ matches (r_ o) mid).
  { exists "", "--reverseFluxPolarity", "=1". split; [reflexivity|].
    apply regex_match_whole. exists [Some "--reverseFluxPolarity"].
    apply (nth_error_eval
             (fun x => regex_match "--reverseFluxPolarity" (r_ x)) _ _ E).
    vm_compute. reflexivity. }
  assert (Hnot : ~ matches (r_ o) arg).
  { intros H. apply regex_match_whole in H as [m Hm].
    assert (Hn : regex_match arg (r_ o) = None).
    { apply (nth_error_eval (fun x => regex_match arg (r_ x)) _ _ E).
      vm_compute. reflexivity. }
    rewrite Hn in Hm. discriminate. }
  split; [exact Hpart|]. split; [exact Hnot|].
  destruct (proj2 (C7_whole_token_match arg 0 Example.world0)
              o [] false Hpart Hnot) as [Hscan Hbody].
  split; [exact Hscan|]. apply Hbody. discriminate.
Defined.

(* ================================================================== *)
(** * Further properties of [parseCmdLine] *)

Section Uniform.

Context {L : RegexLib} {St : Type}.
Implicit Types (opts next more : list (Opt St)) (o : Opt St) (w : World St).
Implicit Types (arg : string) (m : cmatch) (args : list string).

(** What the body of the loop does with a token is fixed by the token and
    the table alone, whatever the flag and the world it starts from. *)
Lemma arg_body_uniform opts arg :
  (is_help arg = true
   /\ forall (showUsage : bool) w, arg_body arg opts showUsage w = (true, w))
  \/ (unrecognised opts arg = true
      /\ forall (showUsage : bool) w,
           arg_body arg opts showUsage w = (true, put_cerr (diagnostic arg) w))
  \/ (exists pos o m,
        handled opts arg = true
        /\ nth_error opts pos = Some o
        /\ first_match opts arg pos m
        /\ forall (showUsage : bool) w,
             arg_body arg opts showUsage w = (showUsage, invoke pos o m w)).
Proof.
  destruct (is_help arg) eqn:Hh.
  - left. split; [reflexivity|]. intros su w. now apply arg_body_help.
  - right. destruct (scan_cases arg opts)
      as [Hnone|[pre [o [post [m [Hsplit [Hpre Ho]]]]]]].
    + left. apply recognised_false in Hnone.
      assert (Hu : unrecognised opts arg = true)
        by (unfold unrecognised; now rewrite Hh, Hnone).
      split; [assumption|]. intros su w. now apply arg_body_unrecognised.
    + right. exists (List.length pre), o, m.
      assert (Hr : recognised opts arg = true)
        by (eapply recognised_split; eassumption).
      split; [unfold handled; now rewrite Hh, Hr|].
      split; [subst opts; rewrite nth_error_app2 by lia;
              now rewrite Nat.sub_diag|].
      split; [eapply first_match_split; eassumption|].
      intros su w. now apply arg_body_first with (post := post).
Qed.

(** The flag only goes up. *)
Lemma each_arg_sticky args opts w :
  fst (each_arg args opts true w) = true.
Proof.
  destruct (each_arg_spec args opts true w) as [cs [-> _]]. reflexivity.
Qed.

Lemma each_arg_flag args opts (showUsage : bool) w :
  fst (each_arg args opts showUsage w)
  = showUsage || usage_requested opts args.
Proof.
  destruct (each_arg_spec args opts showUsage w) as [cs [-> _]]. reflexivity.
Qed.

(** The loop over a list of tokens in two parts. *)
Lemma each_arg_app (l1 l2 : list string) opts (showUsage : bool) w :
  each_arg (l1 ++ l2)%list opts showUsage w
  = each_arg l2 opts (fst (each_arg l1 opts showUsage w))
                     (snd (each_arg l1 opts showUsage w)).
Proof.
  revert showUsage w; induction l1 as [|a l1 IH]; intros su w; simpl.
  - reflexivity.
  - destruct (arg_body a opts su w) as [su1 w1]. apply IH.
Qed.

(** Neither the flag nor the text on the standard output has a part in
    what the loop does to the rest of the world. *)
Lemma each_arg_same_but_cout args opts (su su' : bool) w w' :
  same_but_cout w w' ->
  same_but_cout (snd (each_arg args opts su w)) (snd (each_arg args opts su' w')).
Proof.
  revert su su' w w'; induction args as [|a args IH]; intros su su' w w' Hw.
  - exact Hw.
  - simpl.
    destruct (arg_body_uniform opts a)
      as [[_ H]|[[_ H]|[pos [o [m [_ [_ [_ H]]]]]]]];
      rewrite (H su w), (H su' w'); apply IH;
      destruct Hw as [Hu [He Hc]]; unfold same_but_cout, put_cerr, invoke;
      cbn [user cerr calls]; rewrite ?Hu, ?He, ?Hc; auto.
Qed.

End Uniform.

(** The loop reads [argv] at the positions from [argi] to [argi + n - 1]
    and nowhere else. *)
Lemma for_args_ext {L : RegexLib} {St : Type}
  (n k : nat) (argv argv' : list string) (opts : list (Opt St))
  (showUsage : bool) (w : World St) :
  (forall i, (k <= i < k + n)%nat -> nth i argv "" = nth i argv' "") ->
  for_args n (Z.of_nat k) argv opts showUsage w
  = for_args n (Z.of_nat k) argv' opts showUsage w.
Proof.
  revert k showUsage w; induction n as [|n IH]; intros k su w H.
  - reflexivity.
  - cbn [for_args]. unfold argv_at. rewrite Nat2Z.id.
    rewrite (H k) by lia.
    destruct (arg_body (nth k argv' "") opts su w) as [su1 w1].
    replace (Z.of_nat k + 1) with (Z.of_nat (S k)) by lia.
    apply IH. intros i Hi. apply H. lia.
Qed.

(** X1.  [parseCmdLine] reads [argv] below [argc] only: what stands in
    [argv] from position [argc] on (the terminating null pointer of the C
    runtime, or anything else) has no effect on the call. *)
Theorem X1_argv_read_below_argc {L : RegexLib} {St : Type}
  (argv extra : list string) (opts : list (Opt St)) (w : World St) :
  parseCmdLine (argc_of argv) (argv ++ extra)%list opts w
  = parseCmdLine (argc_of argv) argv opts w.
Proof.
  unfold parseCmdLine, argc_of.
  change 1 with (Z.of_nat 1).
  rewrite for_args_ext with (argv' := argv).
  - destruct argv as [|prog args].
    + reflexivity.
    + destruct (for_args _ _ _ _ _ _) as [[|] w1]; reflexivity.
  - intros i Hi. apply app_nth1. lia.
Qed.

(** X2.  The program name [argv[0]] is never treated as an option: it is
    not compared with [--help] and not matched against the table.  Two
    command lines with the same tokens give the same result, the same
    handler calls, the same state of the caller and the same diagnostics;
    the program name shows in the banner of the usage listing only. *)
Theorem X2_program_name_not_parsed {L : RegexLib} {St : Type}
  (prog prog' : string) (args : list string) (opts : list (Opt St))
  (w : World St) :
  let r := parseCmdLine (argc_of (prog :: args)) (prog :: args) opts w in
  let r' := parseCmdLine (argc_of (prog' :: args)) (prog' :: args) opts w in
  fst r = fst r'
  /\ user (snd r) = user (snd r')
  /\ cerr (snd r) = cerr (snd r')
  /\ calls (snd r) = calls (snd r')
  /\ cout (snd r)
     = cout w ++ (if fst r then "" else usage_text prog opts).
Proof.
  intros r r'. unfold r, r'. rewrite !parseCmdLine_each_arg.
  cbn [tokens tl].
  destruct (each_arg_spec args opts false w) as [cs [Heq _]].
  rewrite Heq. cbn [orb].
  destruct (existsb _ args).
  - rewrite !print_usage_text. cbn [fst snd]. repeat split.
  - cbn [fst snd user cerr calls cout]. repeat split.
    now rewrite append_nil_r.
Qed.

(** With the program name [--help] and valid tokens the call succeeds. *)
Example X2_program_name_not_parsed_run :
  parseCmdLine 2 ["--help"; "--reverseFluxPolarity"] Example.table Example.world0
  = (true,
     {| user := {| Example.serverAddress := "localhost:10000";
                   Example.reverseFluxPolarity := true;
                   Example.windowWidth := 1280;
                   Example.windowHeight := 1024 |};
        cout := "";
        cerr := "";
        calls := [(1%nat, [Some "--reverseFluxPolarity"])] |}).
Proof. vm_compute. reflexivity. Qed.

(** X3.  Once set, [showUsage] is never reset: the loop entered with the
    flag set leaves with the flag set, so a command line on which the call
    fails still fails with any arguments added after it. *)
Theorem X3_failure_is_final {L : RegexLib} {St : Type}
  (argv more : list string) (opts : list (Opt St)) (w w' : World St) :
  (forall (n : nat) (k : nat), fst (for_args n (Z.of_nat k) argv opts true w) = true)
  /\ (fst (parseCmdLine (argc_of argv) argv opts w) = false ->
      fst (parseCmdLine (argc_of (argv ++ more)) (argv ++ more)%list opts w')
      = false).
Proof.
  split.
  - intros n. revert w. induction n as [|n IH]; intros w k.
    + reflexivity.
    + cbn [for_args].
      destruct (arg_body_uniform opts (argv_at argv (Z.of_nat k)))
        as [[_ H]|[[_ H]|[pos [o [m [_ [_ [_ H]]]]]]]];
        rewrite H; replace (Z.of_nat k + 1) with (Z.of_nat (S k)) by lia;
        apply IH.
  - destruct (parseCmdLine_spec argv opts w) as [cs [-> _]].
    destruct (parseCmdLine_spec (argv ++ more)%list opts w') as [cs' [-> _]].
    cbn [fst]. rewrite !negb_false_iff. unfold usage_requested.
    intros H. apply existsb_exists in H as [a [Hin Ha]].
    apply existsb_exists. exists a. split; [|assumption].
    unfold tokens in *. destruct argv as [|prog args]; [destruct Hin|].
    simpl. apply in_or_app. now left.
Qed.

Lemma X3_failure_is_final_witness :
  fst (parseCmdLine (argc_of ["prog"; "--bogus"]) ["prog"; "--bogus"]
         Example.table Example.world0) = false
  /\ fst (parseCmdLine (argc_of (["prog"; "--bogus"] ++ ["--server=a"]))
            (["prog"; "--bogus"] ++ ["--server=a"])%list
            Example.table Example.world0) = false.
Proof.
  assert (H : fst (parseCmdLine (argc_of ["prog"; "--bogus"]) ["prog"; "--bogus"]
                     Example.table Example.world0) = false)
    by (vm_compute; reflexivity).
  split; [exact H|].
  exact (proj2 (X3_failure_is_final ["prog"; "--bogus"] ["--server=a"]
                  Example.table Example.world0 Example.world0) H).
Defined.

(** ** Worlds up to the standard output *)

Lemma same_but_cout_refl {St : Type} (w : World St) : same_but_cout w w.
Proof. now repeat split. Qed.

Lemma same_but_cout_sym {St : Type} (w w' : World St) :
  same_but_cout w w' -> same_but_cout w' w.
Proof. intros [H1 [H2 H3]]. now repeat split. Qed.

Lemma same_but_cout_trans {St : Type} (w1 w2 w3 : World St) :
  same_but_cout w1 w2 -> same_but_cout w2 w3 -> same_but_cout w1 w3.
Proof.
  intros [H1 [H2 H3]] [K1 [K2 K3]]. repeat split; congruence.
Qed.

Lemma same_but_cout_put_cout {St : Type} (s : string) (w : World St) :
  same_but_cout (put_cout s w) w.
Proof. now repeat split. Qed.

(** The call in terms of the loop over the tokens. *)
Lemma parseCmdLine_loop {L : RegexLib} {St : Type}
  (argv : list string) (opts : list (Opt St)) (w : World St) :
  fst (parseCmdLine (argc_of argv) argv opts w)
  = negb (fst (each_arg (tokens argv) opts false w))
  /\ same_but_cout (snd (parseCmdLine (argc_of argv) argv opts w))
                   (snd (each_arg (tokens argv) opts false w)).
Proof.
  rewrite parseCmdLine_each_arg.
  destruct (each_arg (tokens argv) opts false w) as [[|] w1]; cbn [fst snd negb].
  - split; [reflexivity|]. rewrite print_usage_text.
    apply same_but_cout_put_cout.
  - split; [reflexivity|apply same_but_cout_refl].
Qed.

(** X4.  A command line cut in two: parsing the first part and then the
    second, from the world the first call leaves, calls the same handlers
    in the same order, leaves the caller's state the same and writes the
    same diagnostics as parsing the whole command line in one call; the
    one call succeeds exactly when the two calls both succeed.  (The usage
    listing is written once by the one call and by each failing call of
    the two.) *)
Theorem X4_command_line_in_two_parts {L : RegexLib} {St : Type}
  (prog : string) (l1 l2 : list string) (opts : list (Opt St)) (w : World St) :
  let whole := parseCmdLine (argc_of (prog :: l1 ++ l2)) (prog :: l1 ++ l2)%list opts w in
  let first := parseCmdLine (argc_of (prog :: l1)) (prog :: l1) opts w in
  let second := parseCmdLine (argc_of (prog :: l2)) (prog :: l2) opts (snd first) in
  fst whole = fst first && fst second
  /\ user (snd whole) = user (snd second)
  /\ calls (snd whole) = calls (snd second)
  /\ cerr (snd whole) = cerr (snd second).
Proof.
  intros whole first second.
  destruct (parseCmdLine_loop (prog :: l1 ++ l2)%list opts w) as [Hf Hw].
  destruct (parseCmdLine_loop (prog :: l1) opts w) as [Hf1 Hw1].
  destruct (parseCmdLine_loop (prog :: l2) opts (snd first)) as [Hf2 Hw2].
  fold whole in Hf, Hw. fold first in Hf1, Hw1. fold second in Hf2, Hw2.
  cbn [tokens tl] in *. rewrite each_arg_app in Hf, Hw.
  set (e1 := each_arg l1 opts false w) in *.
  assert (Hsame : same_but_cout (snd whole) (snd second)).
  { eapply same_but_cout_trans; [exact Hw|].
    eapply same_but_cout_trans; [|apply same_but_cout_sym; exact Hw2].
    apply each_arg_same_but_cout. now apply same_but_cout_sym. }
  split.
  - rewrite Hf, Hf1, Hf2, !each_arg_flag. cbn [orb].
    fold e1. now rewrite negb_orb.
  - destruct Hsame as [Hu [He Hc]]. now repeat split.
Qed.

(** ** The result and the handlers *)

Lemma recognised_patterns {L : RegexLib} {St : Type}
  (opts : list (Opt St)) (arg : string) :
  recognised opts arg
  = existsb (fun r => match regex_match arg r with Some _ => true | None => false end)
            (map (@r_ L St) opts).
Proof.
  unfold recognised, accepts. induction opts as [|o opts IH]; simpl; [reflexivity|].
  now rewrite IH.
Qed.

Lemma existsb_pointwise {A : Type} (f g : A -> bool) (l : list A) :
  (forall a, f a = g a) -> existsb f l = existsb g l.
Proof.
  intros H. induction l as [|a l IH]; simpl; [reflexivity|].
  now rewrite H, IH.
Qed.

Lemma filter_pointwise {A : Type} (f g : A -> bool) (l : list A) :
  (forall a, f a = g a) -> filter f l = filter g l.
Proof.
  intros H. induction l as [|a l IH]; simpl; [reflexivity|].
  now rewrite H, IH.
Qed.

(** X5.  Whether the call succeeds, and which diagnostics it writes, is
    fixed by the tokens and the patterns of the table: the handlers, their
    effects and the state of the caller have no part in it.  (A handler
    has no way of refusing a value.) *)
Theorem X5_result_fixed_by_patterns {L : RegexLib} {St St' : Type}
  (argv : list string) (opts : list (Opt St)) (opts' : list (Opt St'))
  (w : World St) (w' : World St') :
  map (@r_ L St) opts = map (@r_ L St') opts' ->
  fst (parseCmdLine (argc_of argv) argv opts w)
  = fst (parseCmdLine (argc_of argv) argv opts' w')
  /\ exists text,
       cerr (snd (parseCmdLine (argc_of argv) argv opts w)) = cerr w ++ text
       /\ cerr (snd (parseCmdLine (argc_of argv) argv opts' w')) = cerr w' ++ text.
Proof.
  intros Hpat.
  assert (Hrec : forall a, recognised opts a = recognised opts' a)
    by (intros a; now rewrite !recognised_patterns, Hpat).
  destruct (parseCmdLine_spec argv opts w) as [cs [-> _]].
  destruct (parseCmdLine_spec argv opts' w') as [cs' [-> _]].
  cbn [fst snd cerr]. split.
  - f_equal. unfold usage_requested. apply existsb_pointwise.
    intros a. now rewrite Hrec.
  - eexists. split; [reflexivity|]. f_equal. f_equal. f_equal.
    apply filter_pointwise. intros a. unfold unrecognised. now rewrite Hrec.
Qed.

Lemma X5_result_fixed_by_patterns_witness :
  let silent := map (fun o : Opt Example.Settings =>
                       {| r_ := r_ o; help_ := help_ o;
                          h_ := fun (_ : cmatch) (st : unit) => st |})
                    Example.table in
  let argv := ["prog"; "--server=a"; "--bogus"] in
  let w' := {| user := tt; cout := ""; cerr := ""; calls := [] |} in
  map (@r_ _ _) Example.table = map (@r_ _ _) silent
  /\ fst (parseCmdLine (argc_of argv) argv Example.table Example.world0)
     = fst (parseCmdLine (argc_of argv) argv silent w').
Proof.
  intros silent argv w'.
  assert (H : map (@r_ _ _) Example.table = map (@r_ _ _) silent)
    by (vm_compute; reflexivity).
  split; [exact H|].
  exact (proj1 (X5_result_fixed_by_patterns argv Example.table silent
                  Example.world0 w' H)).
Defined.

(** X6.  The call makes at most one handler call for each token: exactly
    one for each token that is not [--help] and is matched by some
    descriptor, none for the others; and every call is to a descriptor of
    the table (its position is below the size of the table). *)
Theorem X6_one_call_per_token {L : RegexLib} {St : Type}
  (argv : list string) (opts : list (Opt St)) (w : World St) :
  exists cs,
    calls (snd (parseCmdLine (argc_of argv) argv opts w)) = (calls w ++ cs)%list
    /\ List.length cs = List.length (filter (handled opts) (tokens argv))
    /\ (List.length cs <= List.length (tokens argv))%nat
    /\ Forall (fun c => (fst c < List.length opts)%nat) cs.
Proof.
  destruct (parseCmdLine_spec argv opts w) as [cs [-> HF]].
  exists cs. cbn [snd calls]. split; [reflexivity|].
  assert (Hlen : List.length cs = List.length (filter (handled opts) (tokens argv))).
  { clear - HF. induction HF; simpl; congruence. }
  split; [exact Hlen|]. split.
  - rewrite Hlen. apply filter_length_le.
  - clear - HF. induction HF as [|a c l cs' Hfm _ IH]; constructor; [|exact IH].
    destruct Hfm as [[o [Hnth _]] _].
    apply nth_error_Some. congruence.
Qed.

(** ** Tables that grow *)

(** A scan that finds a descriptor does not see what follows it. *)
Lemma scan_app_found {L : RegexLib} {St : Type}
  (arg : string) (next more : list (Opt St)) (pos : nat) (w : World St) :
  fst (scan arg next pos w) = true ->
  scan arg (next ++ more)%list pos w = scan arg next pos w.
Proof.
  revert pos; induction next as [|o next IH]; intros pos H; simpl in *.
  - discriminate.
  - destruct (regex_match arg (r_ o)); [reflexivity|now apply IH].
Qed.

Lemma each_arg_extend {L : RegexLib} {St : Type}
  (args : list string) (opts more : list (Opt St)) :
  forall (showUsage : bool) (w : World St),
    fst (each_arg args opts showUsage w) = false ->
    each_arg args (opts ++ more)%list showUsage w = each_arg args opts showUsage w.
Proof.
  induction args as [|a args IH]; intros su w H; simpl in *; [reflexivity|].
  unfold arg_body in *.
  destruct (strcmp a "--help" =? 0).
  - now rewrite each_arg_sticky in H.
  - destruct (scan a opts 0 w) as [found w1] eqn:Hscan.
    destruct found; cbn [negb] in *.
    + rewrite scan_app_found by now rewrite Hscan.
      rewrite Hscan. cbn [negb]. now apply IH.
    + now rewrite each_arg_sticky in H.
Qed.

(** X7.  Descriptors added at the end of the table change nothing for a
    command line that was valid without them: the call returns true with
    the same handler calls and the same state of the caller. *)
Theorem X7_table_extension {L : RegexLib} {St : Type}
  (argv : list string) (opts more : list (Opt St)) (w : World St) :
  fst (parseCmdLine (argc_of argv) argv opts w) = true ->
  parseCmdLine (argc_of argv) argv (opts ++ more)%list w
  = parseCmdLine (argc_of argv) argv opts w.
Proof.
  rewrite !parseCmdLine_each_arg. intros H.
  assert (Hf : fst (each_arg (tokens argv) opts false w) = false).
  { destruct (each_arg (tokens argv) opts false w) as [[|] w1];
      [discriminate|reflexivity]. }
  rewrite (each_arg_extend _ _ more _ _ Hf).
  destruct (each_arg (tokens argv) opts false w) as [[|] w1];
    [discriminate|reflexivity].
Qed.

Lemma X7_table_extension_witness :
  let argv := ["prog"; "--server=a"; "--screen=800x600"] in
  fst (parseCmdLine (argc_of argv) argv Example.table Example.world0) = true
  /\ parseCmdLine (argc_of argv) argv
       (Example.table ++ Example.greedy_table)%list Example.world0
     = parseCmdLine (argc_of argv) argv Example.table Example.world0.
Proof.
  intros argv.
  assert (H : fst (parseCmdLine (argc_of argv) argv Example.table Example.world0)
              = true) by (vm_compute; reflexivity).
  split; [exact H|].
  exact (X7_table_extension argv Example.table Example.greedy_table
           Example.world0 H).
Defined.

(** ** The empty table *)

(** X8.  With an empty table no handler is called and the caller's state
    is left as it was: the call succeeds only when there is no token,
    every token other than [--help] gets its diagnostic, and the usage
    listing has the banner and the empty line and nothing between them. *)
Theorem X8_empty_table {L : RegexLib} {St : Type}
  (argv : list string) (w : World St) :
  let no_token := match tokens argv with [] => true | _ :: _ => false end in
  parseCmdLine (argc_of argv) argv (@nil (Opt St)) w
  = (no_token,
     {| user := user w;
        cout := cout w
                ++ (if no_token then ""
                    else "Usage: " ++ argv_at argv 0 ++ endl ++ endl);
        cerr := cerr w
                ++ String.concat ""
                     (map diagnostic
                        (filter (fun a => negb (String.eqb a "--help")) (tokens argv)));
        calls := calls w |}).
Proof.
  intros no_token.
  destruct (parseCmdLine_spec argv (@nil (Opt St)) w) as [cs [-> HF]].
  assert (Hcs : cs = []).
  { assert (Hnil : forall l, filter (handled (@nil (Opt St))) l = []).
    { induction l as [|a l IH]; [reflexivity|].
      simpl. unfold handled at 1. cbn [recognised existsb].
      now rewrite andb_false_r. }
    rewrite Hnil in HF. now inversion HF. }
  subst cs. cbn [run_calls]. rewrite app_nil_r.
  assert (Hur : usage_requested (@nil (Opt St)) (tokens argv) = negb no_token).
  { unfold no_token, usage_requested. destruct (tokens argv) as [|a l]; [reflexivity|].
    cbn [existsb recognised negb]. now rewrite orb_true_r. }
  rewrite Hur, negb_involutive.
  assert (Hflt : filter (unrecognised (@nil (Opt St))) (tokens argv)
                 = filter (fun a => negb (String.eqb a "--help")) (tokens argv)).
  { apply filter_pointwise. intros a. unfold unrecognised, is_help.
    cbn [recognised existsb negb]. now rewrite andb_true_r. }
  rewrite Hflt. destruct no_token; reflexivity.
Qed.

(** ** What the two streams tell *)

Lemma append_eq_self (s t : string) : s ++ t = s -> t = "".
Proof.
  induction s as [|c s IH]; simpl; intros H; [assumption|].
  injection H as H. now apply IH.
Qed.

Lemma concat_diagnostics_empty (l : list string) :
  String.concat "" (map diagnostic l) = "" -> l = [].
Proof.
  destruct l as [|a l]; [reflexivity|].
  cbn [map]. rewrite concat_nosep_cons. unfold diagnostic. simpl. discriminate.
Qed.

Lemma filter_nil_iff {A : Type} (f : A -> bool) (l : list A) :
  filter f l = [] <-> forall a, In a l -> f a = false.
Proof.
  induction l as [|x l IH]; simpl.
  - split; [intros _ a []|reflexivity].
  - destruct (f x) eqn:E; split.
    + discriminate.
    + intros H. specialize (H x (or_introl eq_refl)). congruence.
    + intros H a [<-|Hin]; [assumption|]. now apply IH.
    + intros H. apply IH. intros a Hin. apply H. now right.
Qed.


(** X11.  Nothing is written to the standard error exactly when every
    token is [--help] or is matched by some descriptor.  So a call that
    fails and leaves the standard error as it was had [--help] among its
    tokens: a request for help and a wrong command line give the same
    result, and differ by the diagnostics. *)
Theorem X11_stderr_silent_iff {L : RegexLib} {St : Type}
  (argv : list string) (opts : list (Opt St)) (w : World St) :
  let r := parseCmdLine (argc_of argv) argv opts w in
  (cerr (snd r) = cerr w
   <-> forall arg, In arg (tokens argv) ->
         arg = "--help"
         \/ exists o m, In o opts /\ regex_match arg (r_ o) = Some m)
  /\ (fst r = false -> cerr (snd r) = cerr w -> In "--help" (tokens argv)).
Proof.
  intros r.
  assert (Hsilent :
    cerr (snd r) = cerr w
    <-> forall arg, In arg (tokens argv) ->
          arg = "--help"
          \/ exists o m, In o opts /\ regex_match arg (r_ o) = Some m).
  { unfold r. destruct (parseCmdLine_spec argv opts w) as [cs [-> _]].
    cbn [snd cerr]. split.
    - intros H. apply append_eq_self, concat_diagnostics_empty in H.
      intros arg Hin.
      pose proof (proj1 (filter_nil_iff _ _) H arg Hin) as Hu.
      unfold unrecognised in Hu.
      destruct (is_help arg) eqn:Hh.
      + left. now apply is_help_true.
      + right. cbn [negb andb] in Hu. apply negb_false_iff in Hu.
        now apply recognised_true_ex.
    - intros H.
      assert (Hnil : filter (unrecognised opts) (tokens argv) = []).
      { apply filter_nil_iff. intros a Hin.
        destruct (unrecognised opts a) eqn:Hu; [|reflexivity].
        apply unrecognised_true in Hu as [Hne Hnone].
        destruct (H a Hin) as [->|[o [m [Ho Hm]]]]; [now contradiction Hne|].
        rewrite (Hnone o Ho) in Hm. discriminate. }
      rewrite Hnil. apply append_nil_r. }
  split; [exact Hsilent|].
  intros Hfalse Hcerr.
  pose proof (proj1 Hsilent Hcerr) as Hall.
  unfold r in Hfalse. destruct (parseCmdLine_spec argv opts w) as [cs [Heq _]].
  rewrite Heq in Hfalse. cbn [fst] in Hfalse. apply negb_false_iff in Hfalse.
  apply existsb_exists in Hfalse as [a [Hin Ha]].
  apply orb_prop in Ha as [Hh|Hr].
  - apply is_help_true in Hh. now subst a.
  - apply negb_true_iff in Hr.
    destruct (Hall a Hin) as [->|[o [m [Ho Hm]]]]; [assumption|].
    assert (recognised opts a = true) by (apply recognised_true; eauto).
    congruence.
Qed.

Lemma X11_stderr_silent_iff_witness :
  let argv := ["prog"; "--server=a"; "--help"] in
  let r := parseCmdLine (argc_of argv) argv Example.table Example.world0 in
  fst r = false
  /\ cerr (snd r) = cerr Example.world0
  /\ In "--help" (tokens argv).
Proof.
  intros argv r.
  assert (Hf : fst r = false) by (vm_compute; reflexivity).
  assert (Hc : cerr (snd r) = cerr Example.world0) by (vm_compute; reflexivity).
  split; [exact Hf|]. split; [exact Hc|].
  exact (proj2 (X11_stderr_silent_iff argv Example.table Example.world0) Hf Hc).
Defined.

(** ** The result and the order of the arguments *)

(** X13.  Whether the call succeeds does not depend on the order of the
    tokens: two command lines whose tokens are the same up to their order
    give the same result. *)
Theorem X13_result_order_independent {L : RegexLib} {St : Type}
  (argv argv' : list string) (opts : list (Opt St)) (w w' : World St) :
  Permutation (tokens argv) (tokens argv') ->
  fst (parseCmdLine (argc_of argv) argv opts w)
  = fst (parseCmdLine (argc_of argv') argv' opts w').
Proof.
  intros Hperm.
  destruct (parseCmdLine_spec argv opts w) as [cs [-> _]].
  destruct (parseCmdLine_spec argv' opts w') as [cs' [-> _]].
  cbn [fst]. f_equal. unfold usage_requested.
  set (bad := fun a => is_help a || negb (recognised opts a)).
  destruct (existsb bad (tokens argv)) eqn:E; symmetry.
  - apply existsb_exists in E as [a [Hin Ha]].
    apply existsb_exists. exists a. split; [|assumption].
    eapply Permutation_in; eassumption.
  - destruct (existsb bad (tokens argv')) eqn:E'; [|reflexivity].
    apply existsb_exists in E' as [a [Hin Ha]].
    assert (existsb bad (tokens argv) = true).
    { apply existsb_exists. exists a. split; [|assumption].
      eapply Permutation_in; [apply Permutation_sym|]; eassumption. }
    congruence.
Qed.

Lemma X13_result_order_independent_witness :
  let argv := ["prog"; "--server=a"; "--bogus"; "--screen=1x2"] in
  let argv' := ["other"; "--bogus"; "--screen=1x2"; "--server=a"] in
  Permutation (tokens argv) (tokens argv')
  /\ fst (parseCmdLine (argc_of argv) argv Example.table Example.world0)
     = fst (parseCmdLine (argc_of argv') argv' Example.table Example.world0).
Proof.
  intros argv argv'.
  assert (H : Permutation (tokens argv) (tokens argv')).
  { unfold argv, argv', tokens. cbn [tl].
    change (Permutation ("--server=a" :: ["--bogus"; "--screen=1x2"])
              (["--bogus"; "--screen=1x2"] ++ "--server=a" :: [])%list).
    apply Permutation_cons_app. rewrite app_nil_r. apply Permutation_refl. }
  split; [exact H|].
  exact (X13_result_order_independent argv argv' Example.table
           Example.world0 Example.world0 H).
Defined.

(** ** Building the table *)



(** A pattern outside the grammar: no table is built. *)
Example X12_table_construction_refused :
  make_table [ {| pattern := "--level=(";
                  help := "unbalanced";
                  handler := Example.set_server |} ] = None.
Proof. reflexivity. Qed.

(** ** The order of the table *)

Lemma at_most_one {A : Type} (f : A -> bool) (l : list A) :
  (List.length (filter f l) <= 1)%nat ->
  forall x y, In x l -> In y l -> f x = true -> f y = true -> x = y.
Proof.
  intros Hlen x y Hx Hy Hfx Hfy.
  assert (Hx' : In x (filter f l)) by (apply filter_In; now split).
  assert (Hy' : In y (filter f l)) by (apply filter_In; now split).
  destruct (filter f l) as [|z [|z' l']]; simpl in *.
  - contradiction.
  - destruct Hx' as [<-|[]], Hy' as [<-|[]]. reflexivity.
  - lia.
Qed.

Lemma recognised_perm {L : RegexLib} {St : Type}
  (opts opts' : list (Opt St)) (arg : string) :
  Permutation opts opts' -> recognised opts arg = recognised opts' arg.
Proof.
  intros Hperm.
  destruct (recognised opts arg) eqn:E; symmetry.
  - apply recognised_true in E as [o [Hin Hm]]. apply recognised_true.
    exists o. split; [eapply Permutation_in; eassumption|assumption].
  - destruct (recognised opts' arg) eqn:E'; [|reflexivity].
    apply recognised_true in E' as [o [Hin Hm]].
    assert (recognised opts arg = true).
    { apply recognised_true. exists o. split; [|assumption].
      eapply Permutation_in; [apply Permutation_sym|]; eassumption. }
    congruence.
Qed.

(** A token that some descriptor matches: the call of the handler of the
    first one, from any flag and any world. *)
Lemma arg_body_handled {L : RegexLib} {St : Type}
  (opts : list (Opt St)) (arg : string) :
  handled opts arg = true ->
  exists pos o m,
    nth_error opts pos = Some o
    /\ regex_match arg (r_ o) = Some m
    /\ forall (showUsage : bool) (w : World St),
         arg_body arg opts showUsage w = (showUsage, invoke pos o m w).
Proof.
  intros Hd. pose proof Hd as Hd'. unfold handled in Hd'.
  apply andb_prop in Hd' as [Hh Hr]. apply negb_true_iff in Hh.
  destruct (arg_body_uniform opts arg)
    as [[Hh' _]|[[Hu _]|[pos [o [m [_ [Hnth [Hfm H]]]]]]]].
  - congruence.
  - unfold unrecognised in Hu. rewrite Hr in Hu.
    rewrite andb_false_r in Hu. discriminate.
  - exists pos, o, m. split; [assumption|]. split; [|assumption].
    destruct Hfm as [[o' [Hnth' Hm]] _]. congruence.
Qed.

(** Worlds with the same state of the caller, the same diagnostics and
    the same match results passed to the handlers, call after call. *)
Lemma each_arg_perm {L : RegexLib} {St : Type}
  (args : list string) (opts opts' : list (Opt St)) :
  Permutation opts opts' ->
  (forall a, In a args -> (List.length (filter (accepts a) opts) <= 1)%nat) ->
  forall (su : bool) (w w' : World St),
    user w = user w' -> cerr w = cerr w' ->
    map snd (calls w) = map snd (calls w') ->
    let e := each_arg args opts su w in
    let e' := each_arg args opts' su w' in
    fst e = fst e'
    /\ user (snd e) = user (snd e')
    /\ cerr (snd e) = cerr (snd e')
    /\ map snd (calls (snd e)) = map snd (calls (snd e')).
Proof.
  intros Hperm. induction args as [|a args IH]; intros Hone su w w' Hu He Hc.
  - simpl. now repeat split.
  - assert (Hone' : forall b, In b args ->
              (List.length (filter (accepts b) opts) <= 1)%nat)
      by (intros b Hb; apply Hone; now right).
    cbn [each_arg]. cbv zeta.
    destruct (is_help a) eqn:Hh.
    + rewrite !arg_body_help by assumption. now apply IH.
    + destruct (recognised opts a) eqn:Hr.
      * assert (Hd : handled opts a = true)
          by (unfold handled; now rewrite Hh, Hr).
        assert (Hd' : handled opts' a = true)
          by (unfold handled; now rewrite Hh, <- (recognised_perm a Hperm), Hr).
        destruct (arg_body_handled opts a Hd) as [pos [o [m [Hnth [Hm H]]]]].
        destruct (arg_body_handled opts' a Hd') as [pos' [o' [m' [Hnth' [Hm' H']]]]].
        rewrite H, H'.
        assert (Heq : o = o').
        { apply (at_most_one (accepts a) opts (Hone a (or_introl eq_refl))).
          - eapply nth_error_In; eassumption.
          - eapply Permutation_in; [apply Permutation_sym; eassumption|].
            eapply nth_error_In; eassumption.
          - apply accepts_true. eauto.
          - apply accepts_true. eauto. }
        subst o'. assert (m = m') by congruence. subst m'.
        apply IH; [assumption| | |]; unfold invoke; cbn [user cerr calls].
        -- now rewrite Hu.
        -- assumption.
        -- now rewrite !map_app, Hc.
      * assert (Hun : unrecognised opts a = true)
          by (unfold unrecognised; now rewrite Hh, Hr).
        assert (Hun' : unrecognised opts' a = true)
          by (unfold unrecognised; now rewrite Hh, <- (recognised_perm a Hperm), Hr).
        rewrite !arg_body_unrecognised by assumption.
        apply IH; [assumption| | |]; unfold put_cerr; cbn [user cerr calls].
        -- assumption.
        -- now rewrite He.
        -- assumption.
Qed.

(** X14.  First match wins matters only where patterns overlap: when
    every token is matched by at most one descriptor, a table with the
    same descriptors in another order gives the same result, the same
    diagnostics, the same match results passed to the handlers in the
    same order and the same state of the caller.  (The positions recorded
    for the calls and the order of the lines of the usage listing follow
    the table.) *)
Theorem X14_order_of_disjoint_patterns {L : RegexLib} {St : Type}
  (argv : list string) (opts opts' : list (Opt St)) (w : World St) :
  Permutation opts opts' ->
  (forall a, In a (tokens argv) ->
             (List.length (filter (accepts a) opts) <= 1)%nat) ->
  let r := parseCmdLine (argc_of argv) argv opts w in
  let r' := parseCmdLine (argc_of argv) argv opts' w in
  fst r = fst r'
  /\ user (snd r) = user (snd r')
  /\ cerr (snd r) = cerr (snd r')
  /\ map snd (calls (snd r)) = map snd (calls (snd r')).
Proof.
  intros Hperm Hone r r'.
  destruct (parseCmdLine_loop argv opts w) as [Hf [Hu [He Hc]]].
  destruct (parseCmdLine_loop argv opts' w) as [Hf' [Hu' [He' Hc']]].
  fold r in Hf, Hu, He, Hc. fold r' in Hf', Hu', He', Hc'.
  destruct (@each_arg_perm _ _ (tokens argv) opts opts' Hperm Hone
              false w w eq_refl eq_refl eq_refl) as [Kf [Ku [Ke Kc]]].
  rewrite Hf, Hf', Hu, Hu', He, He', Hc, Hc'.
  repeat split; [now f_equal|assumption..].
Qed.

Lemma X14_order_of_disjoint_patterns_witness :
  let argv := ["prog"; "--screen=1x2"; "--bogus"; "--server=a"] in
  Permutation Example.table (rev Example.table)
  /\ (forall a, In a (tokens argv) ->
        (List.length (filter (accepts a) Example.table) <= 1)%nat)
  /\ user (snd (parseCmdLine (argc_of argv) argv Example.table Example.world0))
     = user (snd (parseCmdLine (argc_of argv) argv (rev Example.table)
                    Example.world0)).
Proof.
  intros argv.
  assert (Hperm : Permutation Example.table (rev Example.table))
    by apply Permutation_rev.
  assert (Hone : forall a, In a (tokens argv) ->
            (List.length (filter (accepts a) Example.table) <= 1)%nat).
  { intros a [<-|[<-|[<-|[]]]]; vm_compute; lia. }
  split; [exact Hperm|]. split; [exact Hone|].
  exact (proj1 (proj2 (@X14_order_of_disjoint_patterns _ _ argv
                         Example.table (rev Example.table)
                         Example.world0 Hperm Hone))).
Defined.

(** ** Failing calls have effects *)

Lemma usage_requested_handled {L : RegexLib} {St : Type}
  (opts : list (Opt St)) (args : list string) :
  usage_requested opts (filter (handled opts) args) = false.
Proof.
  apply usage_requested_false. split.
  - intros a Ha. apply filter_In in Ha as [_ Hd].
    now apply handled_true in Hd as [_ H].
  - intros Ha. apply filter_In in Ha as [_ Hd].
    apply handled_true in Hd as [Hne _]. now apply Hne.
Qed.

Lemma each_arg_skips_bad_tokens {L : RegexLib} {St : Type}
  (args : list string) (opts : list (Opt St)) :
  forall (su su' : bool) (w w' : World St),
    user w = user w' -> calls w = calls w' ->
    user (snd (each_arg args opts su w))
    = user (snd (each_arg (filter (handled opts) args) opts su' w'))
    /\ calls (snd (each_arg args opts su w))
       = calls (snd (each_arg (filter (handled opts) args) opts su' w')).
Proof.
  induction args as [|a args IH]; intros su su' w w' Hu Hc.
  - now split.
  - cbn [filter each_arg]. cbv zeta.
    destruct (handled opts a) eqn:Hd.
    + destruct (arg_body_handled opts a Hd) as [pos [o [m [_ [_ H]]]]].
      cbn [each_arg]. cbv zeta. rewrite (H su w), (H su' w').
      apply IH; unfold invoke; cbn [user calls]; congruence.
    + destruct (arg_body_uniform opts a)
        as [[_ H]|[[_ H]|[pos [o [m [Hd' _]]]]]]; [| |congruence];
        rewrite (H su w); now apply IH.
Qed.

(** X9.  A failing call is not undone: the handlers of the tokens that
    some descriptor matches have run.  The state of the caller and the
    handler calls after a call are those of the call on the command line
    without its [--help] and unrecognised tokens, and that call
    succeeds. *)
Theorem X9_bad_tokens_are_skipped {L : RegexLib} {St : Type}
  (prog : string) (args : list string) (opts : list (Opt St)) (w : World St) :
  let r := parseCmdLine (argc_of (prog :: args)) (prog :: args) opts w in
  let good := prog :: filter (handled opts) args in
  let r' := parseCmdLine (argc_of good) good opts w in
  fst r' = true
  /\ user (snd r) = user (snd r')
  /\ calls (snd r) = calls (snd r').
Proof.
  intros r good r'.
  destruct (parseCmdLine_loop (prog :: args) opts w) as [_ [Hu [_ Hc]]].
  destruct (parseCmdLine_loop good opts w) as [Hf' [Hu' [_ Hc']]].
  fold r in Hu, Hc. fold r' in Hf', Hu', Hc'.
  unfold good in *. cbn [tokens tl] in *.
  destruct (each_arg_skips_bad_tokens args opts false false w w eq_refl eq_refl)
    as [Ku Kc].
  split; [|split; congruence].
  rewrite Hf', each_arg_flag, usage_requested_handled. reflexivity.
Qed.

(** A call that fails on [--bogus] has stored the address all the same. *)
Example X9_bad_tokens_are_skipped_run :
  let r := parseCmdLine 4 ["prog"; "--bogus"; "--server=a"; "--help"]
             Example.table Example.world0 in
  fst r = false
  /\ Example.serverAddress (user (snd r)) = "a".
Proof. split; vm_compute; reflexivity. Qed.
